(** * Legal Document Assistant: placeholder discovery and substitution

    A shallow embedding of the backend of the repository
    ([backend/src/index.js]) and of the [finalizeDocument] and
    [useAssistantReply] actions of its SolidJS front end, with the
    properties of the specification that can be stated over them and further
    properties of the code.

    - JavaScript strings are sequences of UTF-16 code units: [list N].
    - The regular expressions of the program are values of [regex]; they are
      run by a backtracking matcher that follows the priorities of the
      ECMAScript matcher (greedy and lazy quantifiers, one capture group).
    - [String.prototype.replace] with a global regular expression and a
      replacement string is [js_replace], including the [$]-patterns of the
      replacement string ([getSubstitution]).
    - JSZip and mammoth are external libraries: they are the fields of the
      class [Platform].
    - The [documentStore] ([new Map()]) is a [gmap] from document ids to
      stored documents; a request handler takes the store and returns the
      new store with the response. *)

From Stdlib Require Import NArith ZArith Lia Ascii String.
From stdpp Require Import gmap list sorting.

Set Default Proof Using "Type".
Local Open Scope N_scope.

(** ** JavaScript strings *)

Abbreviation jsstring := (list N).

(** The code units of an ASCII literal. *)
Fixpoint str (s : string) : jsstring :=
  match s with
  | EmptyString => []
  | String a r => N_of_ascii a :: str r
  end.

(** WhiteSpace and LineTerminator code units: the class [\s] of a regular
    expression and the characters removed by [String.prototype.trim]. *)
Definition is_space (c : N) : bool :=
  ((9 <=? c) && (c <=? 13)) || (c =? 32) || (c =? 160) || (c =? 5760)
  || ((8192 <=? c) && (c <=? 8202)) || (c =? 8232) || (c =? 8233)
  || (c =? 8239) || (c =? 8287) || (c =? 12288) || (c =? 65279).

Fixpoint trimStart (s : jsstring) : jsstring :=
  match s with
  | c :: s' => if is_space c then trimStart s' else s
  | [] => []
  end.

Definition trimEnd (s : jsstring) : jsstring := rev (trimStart (rev s)).

Definition trim (s : jsstring) : jsstring := trimEnd (trimStart s).

(** [s.slice(start, end)] for [0 <= start] and [end <= s.length]. *)
Definition slice (s : jsstring) (start stop : nat) : jsstring :=
  take (stop - start) (drop start s).

(** [Array.prototype.join]. *)
Fixpoint join (sep : jsstring) (l : list jsstring) : jsstring :=
  match l with
  | [] => []
  | [x] => x
  | x :: l' => x ++ sep ++ join sep l'
  end.

(** ** Regular expressions *)

(** A class of code units: one character, [\s], a set [[...]] or a negated
    set [[^...]]. *)
Inductive cclass :=
| CChar (c : N)
| CSpace
| COneOf (l : list N)
| CNoneOf (l : list N).

Definition cclass_test (k : cclass) (c : N) : bool :=
  match k with
  | CChar x => c =? x
  | CSpace => is_space c
  | COneOf l => existsb (N.eqb c) l
  | CNoneOf l => negb (existsb (N.eqb c) l)
  end.

(** The fragment of the pattern grammar the program uses.  [RStar] is the
    greedy [a*], [RLazyStar] the lazy [a*?], [RGroup] a capturing group (no
    pattern of the program has more than one). *)
Inductive regex :=
| REmpty
| RClass (k : cclass)
| RSeq (a b : regex)
| RStar (a : regex)
| RLazyStar (a : regex)
| RGroup (a : regex).

(** [a+] and [a+?]: one iteration, then the starred form. *)
Definition RPlus (a : regex) : regex := RSeq a (RStar a).
Definition RLazyPlus (a : regex) : regex := RSeq a (RLazyStar a).

(** A sequence of terms. *)
Definition seq_of (l : list regex) : regex := foldr RSeq REmpty l.

(** The terms matching the code units of [s] literally. *)
Definition lit (s : jsstring) : list regex := map (fun c => RClass (CChar c)) s.

Fixpoint count_groups (r : regex) : nat :=
  match r with
  | REmpty | RClass _ => 0
  | RSeq a b => count_groups a + count_groups b
  | RStar a | RLazyStar a => count_groups a
  | RGroup a => S (count_groups a)
  end.

(** The loops of the greedy and of the lazy star over a matcher [ma] of the
    starred term.  An iteration that consumes nothing is rejected, as in the
    RepeatMatcher of ECMAScript, so the length of the input bounds the
    number of iterations: [fuel] is that length. *)
Fixpoint star_loop {R : Type}
    (ma : jsstring -> option jsstring -> (jsstring -> option jsstring -> option R) -> option R)
    (k : jsstring -> option jsstring -> option R)
    (fuel : nat) (s : jsstring) (cap : option jsstring) : option R :=
  match fuel with
  | O => k s cap
  | S fuel' =>
      match ma s cap
              (fun s1 cap1 =>
                 if (length s1 <? length s)%nat then star_loop ma k fuel' s1 cap1
                 else None) with
      | Some x => Some x
      | None => k s cap
      end
  end.

Fixpoint lazy_loop {R : Type}
    (ma : jsstring -> option jsstring -> (jsstring -> option jsstring -> option R) -> option R)
    (k : jsstring -> option jsstring -> option R)
    (fuel : nat) (s : jsstring) (cap : option jsstring) : option R :=
  match fuel with
  | O => k s cap
  | S fuel' =>
      match k s cap with
      | Some x => Some x
      | None =>
          ma s cap
            (fun s1 cap1 =>
               if (length s1 <? length s)%nat then lazy_loop ma k fuel' s1 cap1
               else None)
      end
  end.

(** The backtracking matcher, in continuation-passing style: [rmatch r s cap
    k] matches [r] at the head of [s] and hands the rest of the input and
    the capture to [k]; when [k] fails the matcher tries its next choice. *)
Fixpoint rmatch {R : Type} (r : regex) (s : jsstring) (cap : option jsstring)
    (k : jsstring -> option jsstring -> option R) : option R :=
  match r with
  | REmpty => k s cap
  | RClass c =>
      match s with
      | x :: s' => if cclass_test c x then k s' cap else None
      | [] => None
      end
  | RSeq a b => rmatch a s cap (fun s1 cap1 => rmatch b s1 cap1 k)
  | RGroup a =>
      rmatch a s cap
        (fun s1 _ => k s1 (Some (take (length s - length s1) s)))
  | RStar a => star_loop (rmatch a) k (length s) s cap
  | RLazyStar a => lazy_loop (rmatch a) k (length s) s cap
  end.

(** One attempt of the matcher at the head of [s]: the length of the match
    and the capture. *)
Definition exec_at (r : regex) (s : jsstring) : option (nat * option jsstring) :=
  rmatch r s None (fun s' cap => Some ((length s - length s')%nat, cap)).

(** The result of [RegExp.prototype.exec]: [match.index], [match[0]] and
    [match[1]]. *)
Record rmatch_result := {
  m_index : nat;
  m_text : jsstring;
  m_group : option jsstring;
}.

(** The successive results of [regex.exec(s)] for a global regular
    expression, until it returns [null].  [pos] is the index of the head of
    [s] in the whole string and [skip] the number of code units left of the
    last match ([lastIndex - pos]).  An empty match moves one code unit
    forward, as [String.prototype.replace] does; no pattern that the program
    runs in an [exec] loop matches the empty string. *)
Fixpoint exec_loop (r : regex) (s : jsstring) (pos skip : nat) : list rmatch_result :=
  match skip with
  | S skip' =>
      match s with
      | [] => []
      | _ :: s' => exec_loop r s' (S pos) skip'
      end
  | O =>
      match exec_at r s with
      | Some (n, cap) =>
          {| m_index := pos; m_text := take n s; m_group := cap |}
          :: match s with
             | [] => []
             | _ :: s' => exec_loop r s' (S pos) (pred n)
             end
      | None =>
          match s with
          | [] => []
          | _ :: s' => exec_loop r s' (S pos) 0
          end
      end
  end.

Definition exec_all (r : regex) (s : jsstring) : list rmatch_result :=
  exec_loop r s 0 0.

(** ** String.prototype.replace *)

Definition digit_val (c : N) : option nat :=
  if (48 <=? c) && (c <=? 57) then Some (N.to_nat (c - 48)) else None.

(** The capture [$n] of a replacement string: the capture when group [n]
    exists (the empty string when it did not take part in the match), and
    [None] when there is no such group. *)
Definition capture_ref (captures : list (option jsstring)) (n : nat) : option jsstring :=
  match n with
  | O => None
  | S i => default [] <$> (captures !! i)
  end.

(** GetSubstitution of ECMAScript, without named groups: [$$] is a dollar
    sign, [$&] the matched text, [$`] the text before the match, [$'] the
    text after it, [$n] and [$nn] a capture; any other code unit stands for
    itself. *)
Fixpoint getSubstitution (matched whole : jsstring) (position : nat)
    (captures : list (option jsstring)) (template : jsstring) : jsstring :=
  match template with
  | [] => []
  | c :: rest =>
      if negb (c =? 36) then c :: getSubstitution matched whole position captures rest
      else
        match rest with
        | [] => [c]
        | d :: rest' =>
            if d =? 36 then 36 :: getSubstitution matched whole position captures rest'
            else if d =? 38 then matched ++ getSubstitution matched whole position captures rest'
            else if d =? 96 then
              take position whole ++ getSubstitution matched whole position captures rest'
            else if d =? 39 then
              drop (position + length matched) whole
              ++ getSubstitution matched whole position captures rest'
            else
              match digit_val d with
              | None => c :: getSubstitution matched whole position captures rest
              | Some n1 =>
                  let one :=
                    match capture_ref captures n1 with
                    | Some t => t ++ getSubstitution matched whole position captures rest'
                    | None => c :: getSubstitution matched whole position captures rest
                    end in
                  match rest' with
                  | e :: rest'' =>
                      match digit_val e with
                      | Some n2 =>
                          match capture_ref captures (10 * n1 + n2) with
                          | Some t =>
                              t ++ getSubstitution matched whole position captures rest''
                          | None => one
                          end
                      | None => one
                      end
                  | [] => one
                  end
              end
        end
  end.

Definition captures_of (r : regex) (cap : option jsstring) : list (option jsstring) :=
  match count_groups r with
  | O => []
  | S _ => [cap]
  end.

(** [whole.replace(r, template)] for a global [r], from the code unit at
    index [pos]: the text outside the matches is kept, every match is
    replaced by the expansion of [template]. *)
Fixpoint replace_loop (r : regex) (template whole s : jsstring) (pos skip : nat) : jsstring :=
  match skip with
  | S skip' =>
      match s with
      | [] => []
      | _ :: s' => replace_loop r template whole s' (S pos) skip'
      end
  | O =>
      match exec_at r s with
      | Some (n, cap) =>
          getSubstitution (take n s) whole pos (captures_of r cap) template
          ++ match n, s with
             | _, [] => []
             | O, c :: s' => c :: replace_loop r template whole s' (S pos) 0
             | S n', _ :: s' => replace_loop r template whole s' (S pos) n'
             end
      | None =>
          match s with
          | [] => []
          | c :: s' => c :: replace_loop r template whole s' (S pos) 0
          end
      end
  end.

Definition js_replace (s : jsstring) (r : regex) (template : jsstring) : jsstring :=
  replace_loop r template s s 0 0.

(** ** The string helpers of [backend/src/index.js] *)

(** The syntax characters [. * + ? ^ $ { } ( ) | [ ] \] of a pattern. *)
Definition syntax_chars : list N := str ".*+?^${}()|[]\".

Definition is_syntax (c : N) : bool := existsb (N.eqb c) syntax_chars.

(** [value.replace(/[.*+?^${}()|[\]\\]/g, '\\$&')] *)
Definition escapeRegExp (value : jsstring) : jsstring :=
  js_replace value (RClass (COneOf syntax_chars)) (str "\$&").

(** [encodeXml]: five global replacements, [&] first. *)
Definition encodeXml (value : jsstring) : jsstring :=
  let v1 := js_replace value (RClass (CChar 38)) (str "&amp;") in
  let v2 := js_replace v1 (RClass (CChar 60)) (str "&lt;") in
  let v3 := js_replace v2 (RClass (CChar 62)) (str "&gt;") in
  let v4 := js_replace v3 (RClass (CChar 34)) (str "&quot;") in
  js_replace v4 (RClass (CChar 39)) (str "&apos;").

(** [/<[^>]+>/g] *)
Definition tag_regex : regex :=
  seq_of [RClass (CChar 60); RPlus (RClass (CNoneOf [62])); RClass (CChar 62)].

(** [stripXml]: [value.replace(/<[^>]+>/g, ' ')] *)
Definition stripXml (value : jsstring) : jsstring :=
  js_replace value tag_regex (str " ").

(** [decodeXmlEntities]: the five entities, then [/\s+/g] to one space, then
    [trim()]. *)
Definition decodeXmlEntities (value : jsstring) : jsstring :=
  let v1 := js_replace value (seq_of (lit (str "&quot;"))) [34] in
  let v2 := js_replace v1 (seq_of (lit (str "&apos;"))) [39] in
  let v3 := js_replace v2 (seq_of (lit (str "&lt;"))) [60] in
  let v4 := js_replace v3 (seq_of (lit (str "&gt;"))) [62] in
  let v5 := js_replace v4 (seq_of (lit (str "&amp;"))) [38] in
  let v6 := js_replace v5 (RPlus (RClass CSpace)) (str " ") in
  trim v6.

(** [extractContextSnippet(xml, index, length)]: 400 code units on each side
    of the match, tags stripped and entities decoded. *)
Definition extractContextSnippet (xml : jsstring) (index len : nat) : jsstring :=
  let window := 400%nat in
  let start := (index - window)%nat in
  let stop := (length xml `min` (index + len + window))%nat in
  let snippet := slice xml start stop in
  decodeXmlEntities (stripXml snippet).

(** ** Placeholder discovery *)

Record Placeholder := {
  ph_id : jsstring;
  ph_label : jsstring;
  ph_context : jsstring;
}.

(** [/\{\{\s*([^{}]+?)\s*\}\}/g] *)
Definition placeholder_regex : regex :=
  seq_of [RClass (CChar 123); RClass (CChar 123);
          RStar (RClass CSpace);
          RGroup (RLazyPlus (RClass (CNoneOf [123; 125])));
          RStar (RClass CSpace);
          RClass (CChar 125); RClass (CChar 125)].

(** The body of the [while] loop of [extractPlaceholders], run on the
    successive results of [regex.exec(documentXml)]. *)
Fixpoint extract_loop (documentXml : jsstring) (matches : list rmatch_result)
    (seen : gset jsstring) (placeholders : list Placeholder) : list Placeholder :=
  match matches with
  | [] => placeholders
  | m :: rest =>
      let rawKey := trim (default [] (m_group m)) in
      if bool_decide (rawKey = []) || bool_decide (rawKey ∈ seen) then
        extract_loop documentXml rest seen placeholders
      else
        let contextSnippet :=
          extractContextSnippet documentXml (m_index m) (length (m_text m)) in
        extract_loop documentXml rest ({[rawKey]} ∪ seen)
          (placeholders
           ++ [{| ph_id := rawKey; ph_label := rawKey; ph_context := contextSnippet |}])
  end.

Definition extractPlaceholders (documentXml : jsstring) : list Placeholder :=
  extract_loop documentXml (exec_all placeholder_regex documentXml) ∅ [].

(** ** Substitution *)

(** [new RegExp(source, 'g')] for the fragment of the pattern grammar that
    the sources built by this program stay in: a pattern character, an
    escaped syntax character and [\s], each with an optional [*].  A source
    outside the fragment has no result here; [regexp_of_escaped] shows that
    the sources of [finalize] are inside it. *)
Fixpoint parse_terms (source : jsstring) : option (list regex) :=
  match source with
  | [] => Some []
  | c :: rest =>
      if c =? 92 then
        match rest with
        | [] => None
        | e :: rest' =>
            let atom :=
              if e =? 115 then Some (RClass CSpace)
              else if is_syntax e then Some (RClass (CChar e))
              else None in
            match atom with
            | None => None
            | Some a =>
                match rest' with
                | q :: rest'' =>
                    if q =? 42 then cons (RStar a) <$> parse_terms rest''
                    else cons a <$> parse_terms rest'
                | [] => Some [a]
                end
            end
        end
      else if is_syntax c then None
      else
        match rest with
        | q :: rest' =>
            if q =? 42 then cons (RStar (RClass (CChar c))) <$> parse_terms rest'
            else cons (RClass (CChar c)) <$> parse_terms rest
        | [] => Some [RClass (CChar c)]
        end
  end.

Definition new_RegExp (source : jsstring) : option regex :=
  seq_of <$> parse_terms source.

(** The template literal [`\\{\\{\\s*${escapeRegExp(key)}\\s*\\}\\}`]. *)
Definition placeholder_pattern_source (key : jsstring) : jsstring :=
  str "\{\{\s*" ++ escapeRegExp key ++ str "\s*\}\}".

(** ** JavaScript values of a request body *)

(** A value parsed from JSON.  The properties of an object are listed in the
    order in which [Object.entries] enumerates them.  Of a number, only
    whether it is zero is observed. *)
#[warnings="-register-all"]
Inductive jsval :=
| JUndefined
| JNull
| JBool (b : bool)
| JNum (z : Z)
| JStr (s : jsstring)
| JArr (items : list jsval)
| JObj (props : list (jsstring * jsval)).

(** [!v] is [negb (truthy v)]. *)
Definition truthy (v : jsval) : bool :=
  match v with
  | JUndefined | JNull => false
  | JBool b => b
  | JNum z => negb (z =? 0)%Z
  | JStr s => negb (bool_decide (s = []))
  | JArr _ | JObj _ => true
  end.

(** [typeof v === 'object'] *)
Definition typeof_object (v : jsval) : bool :=
  match v with
  | JNull | JArr _ | JObj _ => true
  | _ => false
  end.

Fixpoint assoc_get (props : list (jsstring * jsval)) (name : jsstring) : jsval :=
  match props with
  | [] => JUndefined
  | (k, v) :: rest => if bool_decide (k = name) then v else assoc_get rest name
  end.

(** [body.name] for the names [docId] and [values], which only an object can
    have as own properties. *)
Definition get_prop (body : jsval) (name : jsstring) : jsval :=
  match body with
  | JObj props => assoc_get props name
  | _ => JUndefined
  end.

Fixpoint uint_digits (d : Decimal.uint) : jsstring :=
  match d with
  | Decimal.Nil => []
  | Decimal.D0 d => 48 :: uint_digits d
  | Decimal.D1 d => 49 :: uint_digits d
  | Decimal.D2 d => 50 :: uint_digits d
  | Decimal.D3 d => 51 :: uint_digits d
  | Decimal.D4 d => 52 :: uint_digits d
  | Decimal.D5 d => 53 :: uint_digits d
  | Decimal.D6 d => 54 :: uint_digits d
  | Decimal.D7 d => 55 :: uint_digits d
  | Decimal.D8 d => 56 :: uint_digits d
  | Decimal.D9 d => 57 :: uint_digits d
  end.

(** The property name of an array index. *)
Definition index_key (i : nat) : jsstring := uint_digits (Nat.to_uint i).

(** [Object.entries(v)] for a value with [typeof v === 'object'] that is not
    [null]: the properties of an object, the indexed items of an array. *)
Definition object_entries (v : jsval) : list (jsstring * jsval) :=
  match v with
  | JObj props => props
  | JArr items => imap (fun i x => (index_key i, x)) items
  | _ => []
  end.

(** ** The libraries and the document store *)

Abbreviation buffer := (list N).

(** JSZip, mammoth and the built-in case mapping.  A promise that rejects
    (or a call that throws) has no result. *)
Class Platform := {
  Zip : Type;
  ZipEntry : Type;
  (** [JSZip.loadAsync(buffer)] *)
  loadAsync : buffer -> option Zip;
  (** [zip.file(path)]: the entry, or [null] *)
  zip_file : Zip -> jsstring -> option ZipEntry;
  (** [entry.async('string')] *)
  async_string : ZipEntry -> option jsstring;
  (** [zip.file(path, content)] *)
  zip_file_set : Zip -> jsstring -> jsstring -> Zip;
  (** [zip.generateAsync({ type: 'nodebuffer' })] *)
  generateAsync : Zip -> option buffer;
  (** [mammoth.convertToHtml({ buffer })], its [value] *)
  convertToHtml : buffer -> option jsstring;
  (** [String.prototype.toLowerCase] *)
  toLowerCase : jsstring -> jsstring;
}.

Record StoredDocument := {
  originalBuffer : buffer;
  previewHtml : jsstring;
  placeholders : list Placeholder;
  filledBuffer : option buffer;
  filledHtml : option jsstring;
  lastValues : jsval;
}.

Abbreviation documentStore := (gmap jsstring StoredDocument).

(** [documentStore.get(docId)]: the keys of the store are strings. *)
Definition store_get (store : documentStore) (docId : jsval) : option (jsstring * StoredDocument) :=
  match docId with
  | JStr d => pair d <$> (store !! d)
  | _ => None
  end.

Inductive response :=
| JsonError (status : nat) (error : string)
| UploadOk (docId : jsstring) (found : list Placeholder) (preview : jsstring)
| FinalizeOk (docId : jsstring) (preview : jsstring)
| DownloadOk (docId : jsstring) (body : buffer).

(** The body of a [try] block: it runs to its end, leaves the handler with
    an early [return res...], or throws. *)
Inductive outcome (A : Type) :=
| Value (a : A)
| Return (r : response)
| Throw.
Arguments Value {A} a.
Arguments Return {A} r.
Arguments Throw {A}.

#[global] Instance outcome_ret : MRet outcome := fun A a => Value a.
#[global] Instance outcome_bind : MBind outcome := fun A B f m =>
  match m with
  | Value a => f a
  | Return r => Return r
  | Throw => Throw
  end.

(** [await p], and a call that may throw. *)
Definition await {A} (p : option A) : outcome A :=
  match p with
  | Some a => Value a
  | None => Throw
  end.

(** [if (!x) return res...] *)
Definition or_return {A} (x : option A) (r : response) : outcome A :=
  match x with
  | Some a => Value a
  | None => Return r
  end.

(** [try { ... } catch (error) { return res.status(500)... }] around a body
    that leaves the store as it is unless it runs to its end. *)
Definition try_catch (store : documentStore) (body : outcome (documentStore * response))
    (message : string) : documentStore * response :=
  match body with
  | Value sr => sr
  | Return r => (store, r)
  | Throw => (store, JsonError 500 message)
  end.

Definition document_xml_path : jsstring := str "word/document.xml".

(** ** The request handlers of the backend *)

(** [req.file] of [POST /api/upload]. *)
Record UploadedFile := {
  originalname : jsstring;
  file_buffer : buffer;
}.

(** [s.endsWith(suffix)] *)
Definition endsWith (s suffix : jsstring) : bool :=
  bool_decide (suffix `suffix_of` s).

(** [POST /api/upload].  [docId] is the result of [uuid()]. *)
Definition upload_handler `{Platform} (docId : jsstring) (store : documentStore)
    (file : option UploadedFile) : documentStore * response :=
  try_catch store
    (file ← or_return file (JsonError 400 "Missing file upload");
     if negb (endsWith (toLowerCase (originalname file)) (str ".docx")) then
       Return (JsonError 400 "Only .docx files are supported")
     else
       let buffer := file_buffer file in
       previewHtml ← await (convertToHtml buffer);
       zip ← await (loadAsync buffer);
       xmlFile ← or_return (zip_file zip document_xml_path)
                   (JsonError 400 "Invalid .docx structure (missing document.xml)");
       documentXml ← await (async_string xmlFile);
       let placeholders := extractPlaceholders documentXml in
       Value (<[docId := {| originalBuffer := buffer;
                            previewHtml := previewHtml;
                            placeholders := placeholders;
                            filledBuffer := None;
                            filledHtml := None;
                            lastValues := JObj [] |}]> store,
              UploadOk docId placeholders previewHtml))
    "Failed to process document upload".

(** One turn of the loop over [Object.entries(values)] in [POST
    /api/finalize]. *)
Definition substitute (documentXml : jsstring) (entry : jsstring * jsval) : option jsstring :=
  let '(key, rawValue) := entry in
  let value := match rawValue with JStr s => s | _ => [] end in
  placeholderPattern ← new_RegExp (placeholder_pattern_source key);
  Some (js_replace documentXml placeholderPattern (encodeXml value)).

Fixpoint substitute_all (documentXml : jsstring) (entries : list (jsstring * jsval)) : option jsstring :=
  match entries with
  | [] => Some documentXml
  | entry :: rest =>
      documentXml ← substitute documentXml entry;
      substitute_all documentXml rest
  end.

(** [POST /api/finalize].  [body] is [req.body]. *)
Definition finalize_handler `{Platform} (store : documentStore) (body : jsval)
    : documentStore * response :=
  try_catch store
    (let body := if truthy body then body else JObj [] in
     let docId := get_prop body (str "docId") in
     let values := get_prop body (str "values") in
     if negb (truthy docId) || negb (truthy values) || negb (typeof_object values) then
       Return (JsonError 400 "docId and values are required")
     else
       '(docId, storedDocument) ← or_return (store_get store docId)
                                     (JsonError 404 "Document not found");
       zip ← await (loadAsync (originalBuffer storedDocument));
       xmlFile ← or_return (zip_file zip document_xml_path)
                   (JsonError 400 "Invalid .docx structure (missing document.xml)");
       documentXml ← await (async_string xmlFile);
       documentXml ← await (substitute_all documentXml (object_entries values));
       let zip := zip_file_set zip document_xml_path documentXml in
       filledBuffer ← await (generateAsync zip);
       filledHtml ← await (convertToHtml filledBuffer);
       Value (<[docId := {| originalBuffer := originalBuffer storedDocument;
                            previewHtml := previewHtml storedDocument;
                            placeholders := placeholders storedDocument;
                            filledBuffer := Some filledBuffer;
                            filledHtml := Some filledHtml;
                            lastValues := values |}]> store,
              FinalizeOk docId filledHtml))
    "Failed to finalize document".

(** [GET /api/documents/:docId/download] *)
Definition download_handler (store : documentStore) (docId : jsstring) : response :=
  match store !! docId with
  | None => JsonError 404 "Document not found"
  | Some storedDocument =>
      DownloadOk docId
        (default (originalBuffer storedDocument) (filledBuffer storedDocument))
  end.

(** ** The [finalizeDocument] action of the front end *)

(** The property order of an object: array indices in increasing order, then
    the other names in the order of their creation. *)
Fixpoint digits_value (s : jsstring) (acc : N) : option N :=
  match s with
  | [] => Some acc
  | c :: s' =>
      if (48 <=? c) && (c <=? 57) then digits_value s' (10 * acc + (c - 48)) else None
  end.

Definition array_index (name : jsstring) : option N :=
  match name with
  | [] => None
  | c :: rest =>
      if (c =? 48) && negb (bool_decide (rest = [])) then None
      else
        n ← digits_value name 0;
        if n <? 4294967295 then Some n else None
  end.

Fixpoint update_property (props : list (jsstring * jsval)) (name : jsstring) (v : jsval)
    : list (jsstring * jsval) :=
  match props with
  | [] => []
  | (k, w) :: rest =>
      if bool_decide (k = name) then (k, v) :: rest
      else (k, w) :: update_property rest name v
  end.

Fixpoint insert_index (props : list (jsstring * jsval)) (n : N) (name : jsstring) (v : jsval)
    : list (jsstring * jsval) :=
  match props with
  | [] => [(name, v)]
  | (k, w) :: rest =>
      match array_index k with
      | Some m => if n <? m then (name, v) :: props else (k, w) :: insert_index rest n name v
      | None => (name, v) :: props
      end
  end.

(** CreateDataProperty: an existing property keeps its place. *)
Definition set_property (props : list (jsstring * jsval)) (name : jsstring) (v : jsval)
    : list (jsstring * jsval) :=
  if bool_decide (name ∈ props.*1) then update_property props name v
  else
    match array_index name with
    | Some n => insert_index props n name v
    | None => props ++ [(name, v)]
    end.

(** [Object.fromEntries(entries)] *)
Definition object_fromEntries (entries : list (jsstring * jsval)) : jsval :=
  JObj (foldl (fun props e => set_property props e.1 e.2) [] entries).

Record PlaceholderSession := {
  ps_messages : list (jsstring * jsstring);
  ps_value : jsstring;
}.

(** [documentMeta()]: the upload response, with the preview of the filled
    document once there is one. *)
Record DocumentMeta := {
  dm_docId : jsstring;
  dm_placeholders : list Placeholder;
  dm_previewHtml : jsstring;
  dm_filledPreviewHtml : option jsstring;
}.

(** The signals and the store of [App] that [finalizeDocument] reads or
    writes. *)
Record AppState := {
  documentMeta : option DocumentMeta;
  sessions : gmap jsstring PlaceholderSession;
  finalizing : bool;
  statusMessage : option jsstring;
  errorMessage : option jsstring;
}.

(** [!sessions[placeholder.id]?.value?.trim()] *)
Definition value_missing (sessions : gmap jsstring PlaceholderSession) (p : Placeholder) : bool :=
  match sessions !! ph_id p with
  | None => true
  | Some session => bool_decide (trim (ps_value session) = [])
  end.

(** [finalizeDocument], with the backend at the other end of [fetch]: the
    new state of the application and the new document store. *)
Definition finalizeDocument `{Platform} (app : AppState) (store : documentStore)
    : AppState * documentStore :=
  match documentMeta app with
  | None => (app, store)
  | Some doc =>
      let missing := filter (fun p => value_missing (sessions app) p = true) (dm_placeholders doc) in
      if (0 <? length missing)%nat then
        ({| documentMeta := documentMeta app; sessions := sessions app;
            finalizing := finalizing app; statusMessage := statusMessage app;
            errorMessage :=
              Some (str "Please provide values for: "
                    ++ join (str ", ") (ph_label <$> missing)) |},
         store)
      else
        let values :=
          object_fromEntries
            ((fun p => (ph_id p, JStr (default [] (ps_value <$> sessions app !! ph_id p))))
             <$> dm_placeholders doc) in
        let body := JObj [(str "docId", JStr (dm_docId doc)); (str "values", values)] in
        let '(store', response) := finalize_handler store body in
        match response with
        | FinalizeOk _ preview =>
            ({| documentMeta :=
                  Some {| dm_docId := dm_docId doc;
                          dm_placeholders := dm_placeholders doc;
                          dm_previewHtml := dm_previewHtml doc;
                          dm_filledPreviewHtml := Some preview |};
                sessions := sessions app; finalizing := false;
                statusMessage :=
                  Some (str "Document finalized. You can review the preview or download the .docx file.");
                errorMessage := None |},
             store')
        | JsonError _ error =>
            ({| documentMeta := documentMeta app; sessions := sessions app;
                finalizing := false;
                statusMessage := Some (str "Finalizing your document...");
                errorMessage := Some (str error) |},
             store')
        | _ =>
            ({| documentMeta := documentMeta app; sessions := sessions app;
                finalizing := false;
                statusMessage := Some (str "Finalizing your document...");
                errorMessage := Some (str "Failed to finalize document") |},
             store')
        end
  end.

(** * Vocabulary of the statements *)

(** ** Matchers *)

Section MatcherVocabulary.
Context {R : Type}.
Implicit Types (k : jsstring -> option jsstring -> option R).
Implicit Types (s : jsstring) (cap : option jsstring).

(** A matcher that only looks at the results of its continuation. *)
Definition respects_ext
    (ma : jsstring -> option jsstring
          -> (jsstring -> option jsstring -> option R) -> option R) : Prop :=
  forall s cap k k', (forall s' c', k s' c' = k' s' c') -> ma s cap k = ma s cap k'.

(** A successful matcher returns a result of its continuation. *)
Definition from_continuation
    (ma : jsstring -> option jsstring
          -> (jsstring -> option jsstring -> option R) -> option R) : Prop :=
  forall s cap k x, ma s cap k = Some x -> exists s' cap', k s' cap' = Some x.

(** The greedy star of a class: the longest run first, then shorter ones. *)
Fixpoint star_class (c : cclass) k s cap : option R :=
  match s with
  | x :: s' =>
      if cclass_test c x then
        match star_class c k s' cap with
        | Some r => Some r
        | None => k s cap
        end
      else k s cap
  | [] => k s cap
  end.

(** The lazy star of a class: the shortest run first. *)
Fixpoint lazy_class (c : cclass) k s cap : option R :=
  match k s cap with
  | Some r => Some r
  | None =>
      match s with
      | x :: s' => if cclass_test c x then lazy_class c k s' cap else None
      | [] => None
      end
  end.

End MatcherVocabulary.

(** ** Escaping, one code unit at a time *)

Definition escape_char (x : N) : jsstring := if is_syntax x then [92; x] else [x].

Definition xml_escape (x : N) : jsstring :=
  if x =? 38 then str "&amp;"
  else if x =? 60 then str "&lt;"
  else if x =? 62 then str "&gt;"
  else if x =? 34 then str "&quot;"
  else if x =? 39 then str "&apos;"
  else [x].

(** The value that one turn of the loop of finalize substitutes. *)
Definition value_of (rawValue : jsval) : jsstring :=
  match rawValue with
  | JStr s => s
  | _ => []
  end.

(** ** The pattern of a key and its tokens *)

(** The terms that [new RegExp] makes of the source of a key: the braces,
    the key spelled out, and [\s*] on both sides of it. *)
Definition key_terms (key : jsstring) : list regex :=
  lit (str "{{") ++ [RStar (RClass CSpace)] ++ lit key
  ++ [RStar (RClass CSpace)] ++ lit (str "}}").

Definition key_regex (key : jsstring) : regex := seq_of (key_terms key).

(** A pattern source that does not start with a quantifier. *)
Definition head_not_star (l : jsstring) : Prop :=
  match l with
  | q :: _ => q <> 42
  | [] => True
  end.

Abbreviation spaces w := (Forall (fun y => is_space y = true) w).

Abbreviation braceless g :=
  (Forall (fun y => cclass_test (CNoneOf [123; 125]) y = true) g).

(** A key that does not start with white space, as every trimmed key. *)
Definition starts_solid (key : jsstring) : Prop :=
  match key with
  | c :: _ => is_space c = false
  | [] => False
  end.

(** The token of a key: [{{], white space, the key, white space, [}}]. *)
Definition is_token (key t : jsstring) : Prop :=
  exists w1 w2, spaces w1 /\ spaces w2
                /\ t = str "{{" ++ w1 ++ key ++ w2 ++ str "}}".

Definition strip_prefix (p s : jsstring) : option jsstring :=
  if bool_decide (p `prefix_of` s) then Some (drop (length p) s) else None.

(** The length of the token of [key] at the head of [s], read from left to
    right without backtracking. *)
Definition token_at (key s : jsstring) : option nat :=
  s1 ← strip_prefix (str "{{") s;
  s2 ← strip_prefix key (trimStart s1);
  s3 ← strip_prefix (str "}}") (trimStart s2);
  Some (length s - length s3)%nat.

(** [substituted key v n s out]: [out] is [s] with its [n] tokens of [key],
    read from left to right, replaced by [v], and nothing else changed. *)
Inductive substituted (key v : jsstring) : nat -> jsstring -> jsstring -> Prop :=
| substituted_nil : substituted key v 0 [] []
| substituted_token t rest out n :
    is_token key t ->
    substituted key v n rest out ->
    substituted key v (S n) (t ++ rest) (v ++ out)
| substituted_char c rest out n :
    (forall t r, is_token key t -> c :: rest <> t ++ r) ->
    substituted key v n rest out ->
    substituted key v n (c :: rest) (c :: out).

(** ** Discovery *)

(** [match[1].trim()] *)
Definition candidate (m : rmatch_result) : jsstring := trim (default [] (m_group m)).

(** The placeholder that the loop pushes for a match. *)
Definition placeholder_of (documentXml : jsstring) (m : rmatch_result) : Placeholder :=
  {| ph_id := candidate m; ph_label := candidate m;
     ph_context := extractContextSnippet documentXml (m_index m) (length (m_text m)) |}.

(** ** Requests and stored documents *)

Section HandlerVocabulary.
Context `{Platform}.

(** The text of the primary part of a container. *)
Definition read_document_xml (b : buffer) : option jsstring :=
  zip ← loadAsync b;
  xmlFile ← zip_file zip document_xml_path;
  async_string xmlFile.

(** The document that a successful upload stores. *)
Definition uploaded (b : buffer) (preview : jsstring) (found : list Placeholder)
    : StoredDocument :=
  {| originalBuffer := b; previewHtml := preview; placeholders := found;
     filledBuffer := None; filledHtml := None; lastValues := JObj [] |}.

(** The part of [POST /api/finalize] between the lookup of the document and
    the update of the store, as a function of the original bytes and of the
    values alone. *)
Definition filled_from (original : buffer) (values : jsval) : outcome (buffer * jsstring) :=
  zip ← await (loadAsync original);
  xmlFile ← or_return (zip_file zip document_xml_path)
              (JsonError 400 "Invalid .docx structure (missing document.xml)");
  documentXml ← await (async_string xmlFile);
  documentXml ← await (substitute_all documentXml (object_entries values));
  filledBuffer ← await (generateAsync (zip_file_set zip document_xml_path documentXml));
  filledHtml ← await (convertToHtml filledBuffer);
  Value (filledBuffer, filledHtml).

(** The stored document after a successful finalize. *)
Definition with_filled (d : StoredDocument) (fb : buffer) (html : jsstring) (values : jsval)
    : StoredDocument :=
  {| originalBuffer := originalBuffer d; previewHtml := previewHtml d;
     placeholders := placeholders d; filledBuffer := Some fb;
     filledHtml := Some html; lastValues := values |}.

(** The checks of [POST /api/finalize] and the lookup of the document. *)
Definition finalize_request (store : documentStore) (body : jsval)
    : response + (jsstring * StoredDocument * jsval) :=
  let body := if truthy body then body else JObj [] in
  let docId := get_prop body (str "docId") in
  let values := get_prop body (str "values") in
  if negb (truthy docId) || negb (truthy values) || negb (typeof_object values) then
    inl (JsonError 400 "docId and values are required")
  else
    match store_get store docId with
    | None => inl (JsonError 404 "Document not found")
    | Some (d, doc) => inr (d, doc, values)
    end.

End HandlerVocabulary.

(** The requests that change the store. *)
Inductive request :=
| UploadRequest (docId : jsstring) (file : option UploadedFile)
| FinalizeRequest (body : jsval).

Definition handle `{Platform} (store : documentStore) (req : request) : documentStore :=
  match req with
  | UploadRequest docId file => (upload_handler docId store file).1
  | FinalizeRequest body => (finalize_handler store body).1
  end.

(** The values of a finalize request that names the document [d] and passes
    the checks of the handler. *)
Definition values_for (d : jsstring) (body : jsval) : option jsval :=
  match get_prop body (str "docId") with
  | JStr d' =>
      let values := get_prop body (str "values") in
      if bool_decide (d' = d) && negb (bool_decide (d = []))
         && truthy values && typeof_object values
      then Some values else None
  | _ => None
  end.

(** The bytes that a download of [d] is expected to serve after a sequence
    of requests: those of the latest finalize of [d] that succeeded,
    computed from the original bytes, and [current] when there is none. *)
Fixpoint served `{Platform} (d : jsstring) (original current : buffer)
    (requests : list request) : buffer :=
  match requests with
  | [] => current
  | UploadRequest _ _ :: rest => served d original current rest
  | FinalizeRequest body :: rest =>
      match values_for d body with
      | Some values =>
          match filled_from original values with
          | Value (fb, _) => served d original fb rest
          | _ => served d original current rest
          end
      | None => served d original current rest
      end
  end.

(** An upload under another id. *)
Definition other_upload (d : jsstring) (req : request) : Prop :=
  match req with
  | UploadRequest d' _ => d' <> d
  | FinalizeRequest _ => True
  end.

(** ** Two platforms to run the handlers on *)

(** A container that is the text of its primary part, rendered by removing
    the tags. *)
Definition plain_platform : Platform := {|
  Zip := jsstring;
  ZipEntry := jsstring;
  loadAsync b := Some b;
  zip_file z path := if bool_decide (path = document_xml_path) then Some z else None;
  async_string e := Some e;
  zip_file_set z path content :=
    if bool_decide (path = document_xml_path) then content else z;
  generateAsync z := Some z;
  convertToHtml b := Some (stripXml b);
  toLowerCase s := s;
|}.

(** The same platform with a renderer that rejects every document. *)
Definition unrendered_platform : Platform := {|
  Zip := jsstring;
  ZipEntry := jsstring;
  loadAsync b := Some b;
  zip_file z path := if bool_decide (path = document_xml_path) then Some z else None;
  async_string e := Some e;
  zip_file_set z path content :=
    if bool_decide (path = document_xml_path) then content else z;
  generateAsync z := Some z;
  convertToHtml b := None;
  toLowerCase s := s;
|}.

(** * The rest of the backend and of the front end *)

(** ** [POST /api/conversation] *)

(** [openaiClient.chat.completions.create({ model, messages, temperature:
    0.2 })] followed by [response?.choices?.[0]?.message]: no result when
    the call rejects, [JUndefined] when the response has no such message.  A
    message is its role and its content. *)
Record OpenAI := {
  chat_completions_create : jsstring -> list (jsstring * jsstring) -> option jsval;
}.

Inductive conversation_response :=
| ConversationError (status : nat) (error : string)
| ConversationOk (message : jsval).

(** [Array.isArray(v)] *)
Definition isArray (v : jsval) : bool :=
  match v with
  | JArr _ => true
  | _ => false
  end.

(** [item.id === placeholderId] *)
Definition id_is (placeholderId : jsval) (item : Placeholder) : bool :=
  match placeholderId with
  | JStr s => bool_decide (ph_id item = s)
  | _ => false
  end.

(** The content of the system message: the lines that are not empty, joined
    by line feeds. *)
Definition system_content (placeholder : Placeholder) : jsstring :=
  join [10]
    ([str "You are a helpful assistant for legal document drafting.";
      str "Gather precise information from the user to fill in the placeholder provided.";
      str "Produce concise answers suitable for direct insertion into the document.";
      str "Placeholder: " ++ ph_id placeholder]
     ++ (if bool_decide (ph_context placeholder = []) then []
         else [str "Context: " ++ ph_context placeholder])).

(** The messages of the request with a string role and a string content,
    reduced to these two fields. *)
Fixpoint chat_history (messages : list jsval) : list (jsstring * jsstring) :=
  match messages with
  | [] => []
  | message :: rest =>
      match get_prop message (str "role"), get_prop message (str "content") with
      | JStr role, JStr content => (role, content) :: chat_history rest
      | _, _ => chat_history rest
      end
  end.

(** [process.env.OPENAI_MODEL || 'gpt-4o-mini'] *)
Definition chat_model (OPENAI_MODEL : option jsstring) : jsstring :=
  match OPENAI_MODEL with
  | Some (c :: m) => c :: m
  | _ => str "gpt-4o-mini"
  end.

(** [POST /api/conversation].  [openaiClient] is [null] when no API key is
    configured. *)
Definition conversation_handler (openaiClient : option OpenAI)
    (OPENAI_MODEL : option jsstring) (store : documentStore) (body : jsval)
    : conversation_response :=
  match openaiClient with
  | None => ConversationError 500 "OpenAI API key is not configured on the server"
  | Some client =>
      let body := if truthy body then body else JObj [] in
      let docId := get_prop body (str "docId") in
      let placeholderId := get_prop body (str "placeholderId") in
      let messages := get_prop body (str "messages") in
      if negb (truthy docId) || negb (truthy placeholderId) || negb (isArray messages) then
        ConversationError 400 "docId, placeholderId, and messages are required"
      else
        match store_get store docId with
        | None => ConversationError 404 "Document not found"
        | Some (_, storedDocument) =>
            match List.find (id_is placeholderId) (placeholders storedDocument) with
            | None => ConversationError 404 "Placeholder not found"
            | Some placeholder =>
                let model := chat_model OPENAI_MODEL in
                let chatMessages :=
                  (str "system", system_content placeholder)
                  :: chat_history (match messages with JArr items => items | _ => [] end) in
                match chat_completions_create client model chatMessages with
                | None => ConversationError 500 "Failed to generate assistant response"
                | Some completion =>
                    if negb (truthy completion) then
                      ConversationError 502 "No completion returned from OpenAI"
                    else ConversationOk completion
                end
            end
        end
  end.

(** ** [parseOrigins] *)

(** [s.split(sep)] for a separator of one code unit. *)
Fixpoint split_on (sep : N) (s : jsstring) : list jsstring :=
  match s with
  | [] => [[]]
  | c :: s' =>
      if c =? sep then [] :: split_on sep s'
      else
        match split_on sep s' with
        | item :: items => (c :: item) :: items
        | [] => [[c]]
        end
  end.

(** The result of [parseOrigins]: [undefined], one origin, or an array. *)
Inductive origins :=
| NoOrigin
| OneOrigin (origin : jsstring)
| ManyOrigins (list_of : list jsstring).

(** [parseOrigins(process.env.CLIENT_ORIGIN)] *)
Definition parseOrigins (value : option jsstring) : origins :=
  match value with
  | None | Some [] => NoOrigin
  | Some value =>
      let origins :=
        List.filter (fun item => negb (bool_decide (item = [])))
          (trim <$> split_on 44 value) in
      match origins with
      | [] => NoOrigin
      | [origin] => OneOrigin origin
      | _ => ManyOrigins origins
      end
  end.

(** ** [useAssistantReply] of the front end *)

(** [useAssistantReply]: the value of the selected placeholder becomes the
    content of the last message of the assistant in its session. *)
Definition useAssistantReply (selectedPlaceholderId : option jsstring)
    (sessions : gmap jsstring PlaceholderSession) : gmap jsstring PlaceholderSession :=
  match selectedPlaceholderId with
  | None | Some [] => sessions
  | Some placeholderId =>
      match sessions !! placeholderId with
      | None => sessions
      | Some session =>
          match List.find (fun message => bool_decide (message.1 = str "assistant"))
                  (rev (ps_messages session)) with
          | Some lastAssistant =>
              <[placeholderId := {| ps_messages := ps_messages session;
                                    ps_value := lastAssistant.2 |}]> sessions
          | None => sessions
          end
      end
  end.

(** * More vocabulary *)

(** What is left of [s] after its longest prefix in the class. *)
Fixpoint dropwhile_class (c : cclass) (s : jsstring) : jsstring :=
  match s with
  | y :: s' => if cclass_test c y then dropwhile_class c s' else s
  | [] => []
  end.

(** The escaping of the code units of [todo] only: the text between two
    passes of [decodeXmlEntities] over an encoded value. *)
Definition partial_escape (todo : list N) (x : N) : jsstring :=
  if existsb (N.eqb x) todo then xml_escape x else [x].

(** Two texts that differ at a position they both have. *)
Fixpoint clash (p t : jsstring) : bool :=
  match p, t with
  | a :: p', b :: t' => negb (a =? b) || clash p' t'
  | _, _ => false
  end.

(** White space collapsed: every run of white space becomes one space.
    [in_run] tells that the code unit before [s] was white space. *)
Fixpoint collapse (in_run : bool) (s : jsstring) : jsstring :=
  match s with
  | [] => []
  | c :: s' =>
      if is_space c then
        if in_run then collapse true s' else 32 :: collapse true s'
      else c :: collapse false s'
  end.

(** A text whose only white space is single spaces. *)
Fixpoint single_spaced (s : jsstring) : bool :=
  match s with
  | [] => true
  | c :: s' =>
      (if is_space c then
         (c =? 32) && match s' with d :: _ => negb (is_space d) | [] => true end
       else true)
      && single_spaced s'
  end.

(** No tag starts anywhere in the text. *)
Definition tag_free (s : jsstring) : Prop :=
  forall i, exec_at tag_regex (drop i s) = None.

(** ** Stored documents *)

Section StoreVocabulary.
Context `{Platform}.

(** A stored document whose fields agree with each other: the placeholders
    are those of the primary part of the original bytes, the preview is the
    rendering of the original bytes, and the filled bytes, if any, are the
    original bytes filled with the last values. *)
Definition consistent_document (doc : StoredDocument) : Prop :=
  (exists documentXml,
      read_document_xml (originalBuffer doc) = Some documentXml
      /\ placeholders doc = extractPlaceholders documentXml)
  /\ convertToHtml (originalBuffer doc) = Some (previewHtml doc)
  /\ match filledBuffer doc, filledHtml doc with
     | None, None => lastValues doc = JObj []
     | Some fb, Some html =>
         filled_from (originalBuffer doc) (lastValues doc) = Value (fb, html)
     | _, _ => False
     end.

Definition consistent (store : documentStore) : Prop :=
  forall d doc, store !! d = Some doc -> consistent_document doc.

End StoreVocabulary.

(** ** Origins *)

(** An entry of the result of [parseOrigins]: a trimmed text that is not
    empty and has no comma. *)
Definition clean_origin (origin : jsstring) : Prop :=
  origin <> [] /\ trim origin = origin /\ (44 ∉ origin).

(** * The definitions on small inputs *)

Example exec_all_placeholder_regex :
  exec_all placeholder_regex (str "Dear {{ client name  }}, {{ }}{{{b}}}")
  = [ {| m_index := 5; m_text := str "{{ client name  }}";
         m_group := Some (str "client name") |};
      {| m_index := 25; m_text := str "{{ }}"; m_group := Some (str " ") |};
      {| m_index := 31; m_text := str "{{b}}"; m_group := Some (str "b") |} ].
Proof. vm_compute. reflexivity. Qed.

Example js_replace_dollar_patterns :
  js_replace (str "a&b&c") (RClass (CChar 38)) (str "[$&$$$`|$'$1]")
  = str "a[&$a|b&c$1]b[&$a&b|c$1]c".
Proof. vm_compute. reflexivity. Qed.

Example placeholder_pattern_source_dot :
  placeholder_pattern_source (str "a.b") = str "\{\{\s*a\.b\s*\}\}".
Proof. vm_compute. reflexivity. Qed.

Example extractContextSnippet_entities :
  ph_context <$> extractPlaceholders (str "<w:p><w:t>Dear &amp;   {{client_name}},</w:t>  sign</w:p>")
  = [str "Dear & {{client_name}}, sign"].
Proof. vm_compute. reflexivity. Qed.

Example object_entries_array :
  object_entries (JArr [JStr (str "x"); JNull]) = [(str "0", JStr (str "x")); (str "1", JNull)].
Proof. vm_compute. reflexivity. Qed.

Example object_fromEntries_order :
  object_fromEntries [(str "b", JNull); (str "10", JNull); (str "2", JNull);
                      (str "b", JBool true); (str "01", JNull)]
  = JObj [(str "2", JNull); (str "10", JNull); (str "b", JBool true); (str "01", JNull)].
Proof. vm_compute. reflexivity. Qed.

Example finalizeDocument_sends_values :
  let client := {| ph_id := str "client_name"; ph_label := str "client_name"; ph_context := [] |} in
  let documentXml := str "<w:t>Dear {{ client_name }}</w:t>" in
  let app := {| documentMeta :=
                  Some {| dm_docId := str "doc-1"; dm_placeholders := [client];
                          dm_previewHtml := str " Dear {{ client_name }} ";
                          dm_filledPreviewHtml := None |};
                sessions := {[ str "client_name" :=
                                 {| ps_messages := []; ps_value := str "Acme & Co" |} ]};
                finalizing := false; statusMessage := None; errorMessage := None |} in
  let store : documentStore :=
    {[ str "doc-1" := uploaded documentXml (str " Dear {{ client_name }} ") [client] ]} in
  let result := @finalizeDocument plain_platform app store in
  errorMessage result.1 = None
  /\ (dm_filledPreviewHtml <$> documentMeta result.1) = Some (Some (str " Dear Acme &amp; Co "))
  /\ (filledBuffer <$> result.2 !! str "doc-1")
     = Some (Some (str "<w:t>Dear Acme &amp; Co</w:t>")).
Proof. vm_compute. by split_and!. Qed.

(** * Properties of the matcher *)

Section Matcher.
Context {R : Type}.
Implicit Types (k : jsstring -> option jsstring -> option R).
Implicit Types (s : jsstring) (cap : option jsstring).

Lemma star_loop_ext ma k k' fuel s cap :
  respects_ext ma -> (forall s' c', k s' c' = k' s' c') ->
  star_loop ma k fuel s cap = star_loop ma k' fuel s cap.
Proof.
  intros Hma Hk. revert s cap.
  induction fuel as [|fuel IH]; intros s cap; simpl; [apply Hk|].
  rewrite Hk. erewrite Hma; [reflexivity|].
  intros s' c'. simpl. destruct (_ <? _)%nat; auto.
Qed.

Lemma lazy_loop_ext ma k k' fuel s cap :
  respects_ext ma -> (forall s' c', k s' c' = k' s' c') ->
  lazy_loop ma k fuel s cap = lazy_loop ma k' fuel s cap.
Proof.
  intros Hma Hk. revert s cap.
  induction fuel as [|fuel IH]; intros s cap; simpl; [apply Hk|].
  rewrite Hk. erewrite Hma; [reflexivity|].
  intros s' c'. simpl. destruct (_ <? _)%nat; auto.
Qed.

Lemma rmatch_ext r : respects_ext (rmatch (R:=R) r).
Proof.
  induction r as [|c|a IHa b IHb|a IHa|a IHa|a IHa]; intros s cap k k' Hk; simpl.
  - apply Hk.
  - destruct s as [|x s']; [reflexivity|]. destruct (cclass_test c x); auto.
  - apply IHa. intros s' c'. apply IHb, Hk.
  - apply star_loop_ext; auto.
  - apply lazy_loop_ext; auto.
  - apply IHa. intros s' c'. apply Hk.
Qed.

Lemma rmatch_seq_app l1 l2 s cap k :
  rmatch (seq_of (l1 ++ l2)) s cap k
  = rmatch (seq_of l1) s cap (fun s1 cap1 => rmatch (seq_of l2) s1 cap1 k).
Proof.
  revert s cap. induction l1 as [|a l1 IH]; intros s cap; simpl; [reflexivity|].
  apply rmatch_ext. intros s' c'. apply IH.
Qed.

(** A literal matches the prefix it spells. *)
Lemma rmatch_lit key s cap k :
  rmatch (seq_of (lit key)) s cap k
  = if bool_decide (key `prefix_of` s) then k (drop (length key) s) cap else None.
Proof.
  revert s. induction key as [|c key IH]; intros s.
  - rewrite bool_decide_eq_true_2 by apply prefix_nil. reflexivity.
  - destruct s as [|x s'].
    + rewrite bool_decide_eq_false_2; [reflexivity|]. intros [? ?]; discriminate.
    + change (rmatch (seq_of (lit (c :: key))) (x :: s') cap k)
        with (if x =? c then rmatch (seq_of (lit key)) s' cap k else None).
      change (drop (length (c :: key)) (x :: s')) with (drop (length key) s').
      destruct (N.eqb_spec x c) as [->|Hne].
      * rewrite IH. destruct (decide (key `prefix_of` s')) as [Hp|Hp].
        -- rewrite !bool_decide_eq_true_2; auto. by apply prefix_cons.
        -- rewrite !bool_decide_eq_false_2; auto.
           intros Hp'. apply Hp. by apply prefix_cons_inv_2 in Hp'.
      * rewrite bool_decide_eq_false_2; [done|].
        intros Hp'. apply prefix_cons_inv_1 in Hp'. congruence.
Qed.

Lemma star_loop_class c k fuel s cap :
  (length s <= fuel)%nat ->
  star_loop (rmatch (RClass c)) k fuel s cap = star_class c k s cap.
Proof.
  revert fuel. induction s as [|x s' IH]; intros fuel Hf.
  - destruct fuel; reflexivity.
  - destruct fuel as [|fuel]; [simpl in Hf; lia|]. simpl.
    destruct (cclass_test c x); [|reflexivity].
    rewrite (proj2 (Nat.ltb_lt _ _)) by lia.
    rewrite IH by (simpl in Hf; lia). reflexivity.
Qed.

Lemma rmatch_star_class c s cap k :
  rmatch (RStar (RClass c)) s cap k = star_class c k s cap.
Proof. simpl. by apply star_loop_class. Qed.

Lemma lazy_loop_class c k fuel s cap :
  (length s <= fuel)%nat ->
  lazy_loop (rmatch (RClass c)) k fuel s cap = lazy_class c k s cap.
Proof.
  revert fuel. induction s as [|x s' IH]; intros fuel Hf.
  - destruct fuel; simpl; destruct (k [] cap); reflexivity.
  - destruct fuel as [|fuel]; [simpl in Hf; lia|]. simpl.
    destruct (k (x :: s') cap); [reflexivity|].
    destruct (cclass_test c x); [|reflexivity].
    rewrite (proj2 (Nat.ltb_lt _ _)) by lia.
    rewrite IH by (simpl in Hf; lia). reflexivity.
Qed.

Lemma rmatch_lazy_class c s cap k :
  rmatch (RLazyStar (RClass c)) s cap k = lazy_class c k s cap.
Proof. simpl. by apply lazy_loop_class. Qed.

(** What a successful star of a class has consumed. *)
Lemma star_class_sound c k s cap x :
  star_class c k s cap = Some x ->
  exists w s', s = w ++ s' /\ Forall (fun y => cclass_test c y = true) w
               /\ k s' cap = Some x.
Proof.
  induction s as [|y s' IH]; simpl; intros H.
  - exists [], []. by split_and!.
  - destruct (cclass_test c y) eqn:Hy.
    + destruct (star_class c k s' cap) eqn:Hs.
      * inversion H; subst. destruct (IH eq_refl) as (w & s'' & -> & Hw & Hk).
        exists (y :: w), s''. split_and!; auto.
      * exists [], (y :: s'). by split_and!.
    + exists [], (y :: s'). by split_and!.
Qed.

Lemma lazy_class_sound c k s cap x :
  lazy_class c k s cap = Some x ->
  exists w s', s = w ++ s' /\ Forall (fun y => cclass_test c y = true) w
               /\ k s' cap = Some x.
Proof.
  induction s as [|y s' IH]; simpl; intros H.
  - destruct (k [] cap) eqn:Hk; [|discriminate]. inversion H; subst.
    exists [], []. by split_and!.
  - destruct (k (y :: s') cap) eqn:Hk.
    + exists [], (y :: s'). inversion H; subst. by split_and!.
    + destruct (cclass_test c y) eqn:Hy; [|discriminate].
      destruct (IH H) as (w & s'' & -> & Hw & Hk').
      exists (y :: w), s''. split_and!; auto.
Qed.

(** A star of a class finds a match whenever some run of the class is
    followed by an input that the continuation accepts. *)
Lemma star_class_complete c k w s' cap :
  Forall (fun y => cclass_test c y = true) w ->
  is_Some (k s' cap) -> is_Some (star_class c k (w ++ s') cap).
Proof.
  intros Hw Hk. induction Hw as [|y w Hy Hw IH]; simpl.
  - destruct s' as [|z s'']; simpl; [done|].
    destruct (cclass_test c z); [|done].
    destruct (star_class c k s'' cap); [eauto|done].
  - rewrite Hy. destruct IH as [r ->]. eauto.
Qed.

(** When the continuation rejects every input that starts in the class,
    the star has one choice only: the whole run. *)
Lemma star_class_run k s cap :
  (forall y s', is_space y = true -> k (y :: s') cap = None) ->
  star_class CSpace k s cap = k (trimStart s) cap.
Proof.
  intros Hk. induction s as [|y s' IH]; simpl; [reflexivity|].
  destruct (is_space y) eqn:Hy; [|reflexivity].
  rewrite IH. destruct (k (trimStart s') cap); [reflexivity|]. by apply Hk.
Qed.
End Matcher.

(** * Replacement strings and single-character replacements *)

(** A replacement string without a dollar sign stands for itself. *)
Lemma getSubstitution_plain matched whole position captures template :
  36 ∉ template ->
  getSubstitution matched whole position captures template = template.
Proof.
  induction template as [|c rest IH]; intros Hno; [reflexivity|].
  apply not_elem_of_cons in Hno as [Hc Hrest].
  cbn [getSubstitution]. destruct (N.eqb_spec c 36) as [->|_]; [done|].
  cbn. by rewrite IH.
Qed.

Lemma no_dollar_check template :
  forallb (fun c => negb (c =? 36)) template = true -> 36 ∉ template.
Proof.
  induction template as [|c rest IH]; cbn [forallb]; intros H.
  - apply not_elem_of_nil.
  - apply andb_prop in H as [Hc Hr]. apply not_elem_of_cons. split; [|auto].
    intros <-. discriminate.
Qed.

Lemma exec_at_class c s :
  exec_at (RClass c) s
  = match s with
    | x :: _ => if cclass_test c x then Some (1%nat, None) else None
    | [] => None
    end.
Proof.
  destruct s as [|x s']; [reflexivity|]. unfold exec_at. cbn [rmatch].
  destruct (cclass_test c x); [|reflexivity].
  do 2 f_equal. cbn [length]. lia.
Qed.

(** Replacing the code units of a class one by one. *)
Lemma replace_loop_class c template whole f s pos :
  (forall x p, getSubstitution [x] whole p [] template = f x) ->
  replace_loop (RClass c) template whole s pos 0
  = flat_map (fun x => if cclass_test c x then f x else [x]) s.
Proof.
  intros Hf. revert pos. induction s as [|x s' IH]; intros pos.
  - reflexivity.
  - cbn [replace_loop flat_map]. rewrite exec_at_class.
    destruct (cclass_test c x).
    + cbn [take captures_of count_groups]. rewrite Hf. by rewrite IH.
    + by rewrite IH.
Qed.

Lemma js_replace_class c template f s :
  (forall x whole p, getSubstitution [x] whole p [] template = f x) ->
  js_replace s (RClass c) template
  = flat_map (fun x => if cclass_test c x then f x else [x]) s.
Proof. intros Hf. unfold js_replace. apply replace_loop_class. intros; apply Hf. Qed.

Lemma flat_map_flat_map {A B C} (f : A -> list B) (g : B -> list C) l :
  flat_map g (flat_map f l) = flat_map (fun x => flat_map g (f x)) l.
Proof.
  induction l as [|x l IH]; [reflexivity|].
  cbn [flat_map]. by rewrite flat_map_app, IH.
Qed.

(** ** [escapeRegExp] *)

Lemma escapeRegExp_flat_map value : escapeRegExp value = flat_map escape_char value.
Proof.
  unfold escapeRegExp. rewrite (js_replace_class _ _ (fun x => [92; x])); [reflexivity|].
  intros x whole p. reflexivity.
Qed.

(** ** [encodeXml] *)

(** The five passes of [encodeXml] escape each code unit on its own: the
    ampersands that a later pass writes are not escaped again. *)
Lemma encodeXml_flat_map value : encodeXml value = flat_map xml_escape value.
Proof.
  unfold encodeXml.
  rewrite !(js_replace_class _ _ (fun _ => _))
    by (intros; apply getSubstitution_plain; by apply no_dollar_check).
  rewrite !flat_map_flat_map. apply flat_map_ext. intros x.
  unfold xml_escape. cbn [cclass_test].
  destruct (N.eqb_spec x 38) as [->|H38]; [reflexivity|].
  cbn [flat_map app].
  destruct (N.eqb_spec x 60) as [->|H60]; [reflexivity|].
  cbn [flat_map app].
  destruct (N.eqb_spec x 62) as [->|H62]; [reflexivity|].
  cbn [flat_map app].
  destruct (N.eqb_spec x 34) as [->|H34]; [reflexivity|].
  cbn [flat_map app].
  destruct (N.eqb_spec x 39) as [->|H39]; reflexivity.
Qed.

(** An entity has no dollar sign. *)
Ltac entity_without_dollar :=
  split; [intros Hin; exfalso; revert Hin; by apply no_dollar_check|discriminate].

Lemma xml_escape_dollar x : 36 ∈ xml_escape x <-> x = 36.
Proof.
  unfold xml_escape.
  destruct (N.eqb_spec x 38) as [->|_]; [entity_without_dollar|].
  destruct (N.eqb_spec x 60) as [->|_]; [entity_without_dollar|].
  destruct (N.eqb_spec x 62) as [->|_]; [entity_without_dollar|].
  destruct (N.eqb_spec x 34) as [->|_]; [entity_without_dollar|].
  destruct (N.eqb_spec x 39) as [->|_]; [entity_without_dollar|].
  rewrite list_elem_of_singleton. split; congruence.
Qed.

(** [encodeXml] writes no dollar sign of its own. *)
Lemma encodeXml_dollar value : 36 ∈ encodeXml value <-> 36 ∈ value.
Proof.
  rewrite encodeXml_flat_map. induction value as [|x v IH]; [reflexivity|].
  cbn [flat_map]. rewrite elem_of_app, elem_of_cons, IH, xml_escape_dollar.
  split; (intros [?|?]; [left|right]); congruence.
Qed.

(** * The pattern of a key *)

Lemma parse_terms_plain x rest :
  is_syntax x = false -> head_not_star rest ->
  parse_terms (x :: rest) = cons (RClass (CChar x)) <$> parse_terms rest.
Proof.
  intros Hx Hrest. cbn [parse_terms].
  destruct (N.eqb_spec x 92) as [->|_]; [discriminate|]. rewrite Hx.
  destruct rest as [|q rest']; [reflexivity|].
  destruct (N.eqb_spec q 42) as [->|_]; [done|reflexivity].
Qed.

Lemma parse_terms_escaped x rest :
  is_syntax x = true -> head_not_star rest ->
  parse_terms (92 :: x :: rest) = cons (RClass (CChar x)) <$> parse_terms rest.
Proof.
  intros Hx Hrest. cbn [parse_terms N.eqb Pos.eqb].
  destruct (N.eqb_spec x 115) as [->|_]; [discriminate|]. rewrite Hx.
  destruct rest as [|q rest']; [reflexivity|].
  destruct (N.eqb_spec q 42) as [->|_]; [done|reflexivity].
Qed.

Lemma head_not_star_escaped key tail :
  head_not_star tail -> head_not_star (flat_map escape_char key ++ tail).
Proof.
  intros Ht. destruct key as [|x key]; [exact Ht|].
  cbn [flat_map]. unfold escape_char.
  destruct (is_syntax x) eqn:Hx; cbn; [discriminate|].
  intros ->. discriminate.
Qed.

(** Every escaped key is a pattern of the fragment, and it spells the key. *)
Lemma parse_terms_escaped_key key tail :
  head_not_star tail ->
  parse_terms (flat_map escape_char key ++ tail)
  = app (lit key) <$> parse_terms tail.
Proof.
  intros Ht. induction key as [|x key IH].
  - cbn [flat_map lit map app]. by destruct (parse_terms tail).
  - cbn [flat_map]. unfold escape_char at 1.
    destruct (is_syntax x) eqn:Hx; cbn [app].
    + rewrite parse_terms_escaped by auto using head_not_star_escaped.
      rewrite IH. by destruct (parse_terms tail).
    + rewrite parse_terms_plain by auto using head_not_star_escaped.
      rewrite IH. by destruct (parse_terms tail).
Qed.

Lemma parse_terms_key key :
  parse_terms (placeholder_pattern_source key) = Some (key_terms key).
Proof.
  unfold placeholder_pattern_source. rewrite escapeRegExp_flat_map.
  change (str "\{\{\s*" ++ ?l)
    with (92 :: 123 :: 92 :: 123 :: 92 :: 115 :: 42 :: l).
  cbn [parse_terms N.eqb Pos.eqb is_syntax existsb syntax_chars str N_of_ascii
       orb negb].
  rewrite parse_terms_escaped_key by (cbn; discriminate).
  reflexivity.
Qed.

(** [new RegExp] never throws on the source of a key, whatever the key. *)
Lemma regexp_of_escaped key :
  new_RegExp (placeholder_pattern_source key) = Some (key_regex key).
Proof. unfold new_RegExp. by rewrite parse_terms_key. Qed.

(** * Tokens *)

Lemma strip_prefix_Some p s s' : strip_prefix p s = Some s' <-> s = p ++ s'.
Proof.
  unfold strip_prefix. case_bool_decide as Hp.
  - destruct Hp as [r ->]. rewrite drop_app_length. split; [congruence|].
    intros H. by apply app_inv_head in H as ->.
  - split; [discriminate|]. intros ->. destruct Hp. by exists s'.
Qed.

Lemma trimStart_split s : exists w, spaces w /\ s = w ++ trimStart s.
Proof.
  induction s as [|c s IH]; [by exists []|]. cbn [trimStart].
  destruct (is_space c) eqn:Hc; [|by exists []].
  destruct IH as (w & Hw & Hs). exists (c :: w). split; [by constructor|].
  cbn. by f_equal.
Qed.

Lemma trimStart_spaces w t :
  spaces w -> match t with c :: _ => is_space c = false | [] => True end ->
  trimStart (w ++ t) = t.
Proof.
  intros Hw Ht. induction Hw as [|y w Hy Hw IH]; cbn [app trimStart].
  - destruct t as [|c t]; [reflexivity|]. cbn. by rewrite Ht.
  - by rewrite Hy.
Qed.

Lemma token_at_spec key s n :
  starts_solid key ->
  token_at key s = Some n
  <-> exists t rest, is_token key t /\ s = t ++ rest /\ n = length t.
Proof.
  intros Hkey. unfold token_at. split.
  - intros H.
    destruct (strip_prefix (str "{{") s) as [s1|] eqn:H1; [|discriminate].
    cbn [mbind option_bind] in H.
    destruct (strip_prefix key (trimStart s1)) as [s2|] eqn:H2; [|discriminate].
    cbn [mbind option_bind] in H.
    destruct (strip_prefix (str "}}") (trimStart s2)) as [s3|] eqn:H3; [|discriminate].
    cbn [mbind option_bind] in H. inversion H; subst n; clear H.
    apply strip_prefix_Some in H1, H2, H3.
    destruct (trimStart_split s1) as (w1 & Hw1 & E1).
    destruct (trimStart_split s2) as (w2 & Hw2 & E2).
    exists (str "{{" ++ w1 ++ key ++ w2 ++ str "}}"), s3. split; [by exists w1, w2|].
    assert (s = (str "{{" ++ w1 ++ key ++ w2 ++ str "}}") ++ s3) as Hs.
    { rewrite H1, E1, H2, E2, H3. by rewrite <- !app_assoc. }
    split; [exact Hs|]. rewrite Hs at 1. rewrite length_app. lia.
  - intros (t & rest & (w1 & w2 & Hw1 & Hw2 & ->) & -> & ->).
    rewrite <- !app_assoc.
    rewrite (proj2 (strip_prefix_Some (str "{{") _ _) eq_refl). cbn [mbind option_bind].
    rewrite trimStart_spaces; [|done|by destruct key].
    rewrite (proj2 (strip_prefix_Some key _ _) eq_refl). cbn [mbind option_bind].
    rewrite trimStart_spaces; [|done|reflexivity].
    rewrite (proj2 (strip_prefix_Some (str "}}") _ _) eq_refl). cbn [mbind option_bind].
    f_equal. rewrite !length_app. lia.
Qed.

Section KeyMatcher.
Context {R : Type}.
Implicit Types (k : jsstring -> option jsstring -> option R).

Lemma rmatch_lit_then key l s cap k :
  rmatch (seq_of (lit key ++ l)) s cap k
  = match strip_prefix key s with
    | Some s' => rmatch (seq_of l) s' cap k
    | None => None
    end.
Proof.
  rewrite rmatch_seq_app, rmatch_lit. unfold strip_prefix.
  by case_bool_decide.
Qed.

Lemma rmatch_spaces_then l s cap k :
  (forall y s', is_space y = true -> rmatch (seq_of l) (y :: s') cap k = None) ->
  rmatch (seq_of (RStar (RClass CSpace) :: l)) s cap k
  = rmatch (seq_of l) (trimStart s) cap k.
Proof.
  intros Hrej.
  change (rmatch (seq_of (RStar (RClass CSpace) :: l)) s cap k)
    with (rmatch (RStar (RClass CSpace)) s cap
            (fun s1 cap1 => rmatch (seq_of l) s1 cap1 k)).
  rewrite rmatch_star_class. by rewrite star_class_run.
Qed.

Lemma strip_prefix_solid key y s' :
  starts_solid key -> is_space y = true -> strip_prefix key (y :: s') = None.
Proof.
  intros Hkey Hy. destruct (strip_prefix key (y :: s')) as [r|] eqn:H; [|done].
  apply strip_prefix_Some in H. destruct key as [|c key]; [done|].
  cbn in Hkey. inversion H; subst. congruence.
Qed.

(** On a key that starts solid the matcher never backtracks. *)
Lemma rmatch_key key s cap k :
  starts_solid key ->
  rmatch (key_regex key) s cap k
  = s1 ← strip_prefix (str "{{") s;
    s2 ← strip_prefix key (trimStart s1);
    s3 ← strip_prefix (str "}}") (trimStart s2);
    k s3 cap.
Proof.
  intros Hkey. unfold key_regex, key_terms.
  rewrite rmatch_lit_then.
  destruct (strip_prefix (str "{{") s) as [s1|]; [|reflexivity].
  cbn [mbind option_bind app].
  rewrite rmatch_spaces_then.
  2:{ intros y s' Hy. rewrite rmatch_lit_then. by rewrite strip_prefix_solid. }
  rewrite rmatch_lit_then.
  destruct (strip_prefix key (trimStart s1)) as [s2|]; [|reflexivity].
  cbn [mbind option_bind app].
  rewrite rmatch_spaces_then.
  2:{ intros y s' Hy. rewrite <- (app_nil_r (lit _)), rmatch_lit_then.
      by rewrite strip_prefix_solid. }
  rewrite <- (app_nil_r (lit _)), rmatch_lit_then.
  by destruct (strip_prefix (str "}}") (trimStart s2)).
Qed.
End KeyMatcher.

Lemma exec_at_key key s :
  starts_solid key ->
  exec_at (key_regex key) s = (fun n => (n, None)) <$> token_at key s.
Proof.
  intros Hkey. unfold exec_at, token_at. rewrite rmatch_key by done.
  destruct (strip_prefix (str "{{") s) as [s1|]; [|reflexivity].
  cbn [mbind option_bind].
  destruct (strip_prefix key (trimStart s1)) as [s2|]; [|reflexivity].
  cbn [mbind option_bind].
  by destruct (strip_prefix (str "}}") (trimStart s2)).
Qed.

(** * Global replacement *)

Section FromContinuation.
Context {R : Type}.
Implicit Types (k : jsstring -> option jsstring -> option R).

Lemma star_loop_from ma k fuel s cap x :
  from_continuation ma ->
  star_loop ma k fuel s cap = Some x -> exists s' cap', k s' cap' = Some x.
Proof.
  intros Hma. revert s cap. induction fuel as [|fuel IH]; intros s cap; cbn [star_loop].
  - eauto.
  - destruct (ma s cap _) as [y|] eqn:Hy; [|eauto].
    intros [= ->]. apply Hma in Hy as (s1 & cap1 & Hy).
    destruct (_ <? _)%nat; [eauto|discriminate].
Qed.

Lemma lazy_loop_from ma k fuel s cap x :
  from_continuation ma ->
  lazy_loop ma k fuel s cap = Some x -> exists s' cap', k s' cap' = Some x.
Proof.
  intros Hma. revert s cap. induction fuel as [|fuel IH]; intros s cap; cbn [lazy_loop].
  - eauto.
  - destruct (k s cap) as [y|] eqn:Hy; [intros [= ->]; eauto|].
    intros H. apply Hma in H as (s1 & cap1 & H).
    destruct (_ <? _)%nat; [eauto|discriminate].
Qed.

Lemma rmatch_from r : from_continuation (rmatch (R:=R) r).
Proof.
  induction r as [|c|a IHa b IHb|a IHa|a IHa|a IHa]; intros s cap k x; cbn [rmatch].
  - eauto.
  - destruct s as [|y s']; [discriminate|]. destruct (cclass_test c y); [eauto|discriminate].
  - intros H. apply IHa in H as (s1 & cap1 & H). by apply IHb in H.
  - by apply star_loop_from.
  - by apply lazy_loop_from.
  - intros H. apply IHa in H as (s1 & cap1 & H). eauto.
Qed.
End FromContinuation.

Lemma exec_at_length r s n cap : exec_at r s = Some (n, cap) -> (n <= length s)%nat.
Proof.
  unfold exec_at. intros H. apply rmatch_from in H as (s' & cap' & [= <- _]). lia.
Qed.

(** Skipping the rest of a match. *)
Lemma replace_loop_skip r template whole s pos n :
  (n <= length s)%nat ->
  replace_loop r template whole s pos n
  = replace_loop r template whole (drop n s) (pos + n) 0.
Proof.
  revert s pos. induction n as [|n IH]; intros s pos Hn.
  - by rewrite drop_0, Nat.add_0_r.
  - destruct s as [|c s']; [cbn in Hn; lia|].
    cbn [replace_loop drop]. rewrite IH by (cbn in Hn; lia).
    f_equal. lia.
Qed.

(** A pattern that matches nowhere leaves the string as it is. *)
Lemma replace_loop_no_match r template whole s pos :
  (forall i, exec_at r (drop i s) = None) ->
  replace_loop r template whole s pos 0 = s.
Proof.
  revert pos. induction s as [|c s' IH]; intros pos Hno.
  - pose proof (Hno 0%nat) as H0. cbn [drop] in H0.
    cbn [replace_loop]. by rewrite H0.
  - pose proof (Hno 0%nat) as H0. cbn [drop] in H0.
    cbn [replace_loop]. rewrite H0. f_equal. apply IH.
    intros i. apply (Hno (S i)).
Qed.

Lemma js_replace_no_match r template s :
  (forall i, exec_at r (drop i s) = None) -> js_replace s r template = s.
Proof. apply replace_loop_no_match. Qed.

Lemma is_token_length key t : is_token key t -> (4 <= length t)%nat.
Proof. intros (w1 & w2 & _ & _ & ->). rewrite !length_app. cbn. lia. Qed.

Lemma token_at_None key s t r :
  starts_solid key -> token_at key s = None -> is_token key t -> s <> t ++ r.
Proof.
  intros Hkey Hnone Ht Hs.
  assert (token_at key s = Some (length t)) as H by (apply token_at_spec; eauto).
  congruence.
Qed.

Lemma token_unique key t r t' r' :
  starts_solid key -> is_token key t -> is_token key t' ->
  t ++ r = t' ++ r' -> t = t' /\ r = r'.
Proof.
  intros Hkey Ht Ht' E.
  assert (token_at key (t ++ r) = Some (length t)) as H1 by (apply token_at_spec; eauto).
  assert (token_at key (t ++ r) = Some (length t')) as H2 by (apply token_at_spec; eauto).
  assert (length t = length t') as Hlen by congruence.
  by apply app_inj_1 in E.
Qed.

(** The relation determines the result. *)
Lemma substituted_fun key v n s out n' out' :
  starts_solid key ->
  substituted key v n s out -> substituted key v n' s out' -> n = n' /\ out = out'.
Proof.
  intros Hkey H. revert n' out'.
  induction H as [|t rest out n Ht H IH|c rest out n Hc H IH]; intros n' out' H'.
  - inversion H' as [|t' rest' o' m' Ht' H'' E|]; subst; [done|].
    apply is_token_length in Ht'. destruct t'; [cbn in Ht'; lia|discriminate].
  - remember (t ++ rest) as s eqn:Es.
    destruct H' as [|t' rest' o' m' Ht' H''|c' rest' o' m' Hc' H''].
    + apply is_token_length in Ht. destruct t; [cbn in Ht; lia|discriminate].
    + destruct (token_unique key t rest t' rest' Hkey Ht Ht' (eq_sym Es)) as [-> ->].
      destruct (IH _ _ H'') as [-> ->]. done.
    + by destruct (Hc' t rest Ht).
  - remember (c :: rest) as s eqn:Es.
    destruct H' as [|t' rest' o' m' Ht' H''|c' rest' o' m' Hc' H''].
    + discriminate.
    + destruct (Hc t' rest' Ht'). done.
    + inversion Es; subst. destruct (IH _ _ H'') as [-> ->]. done.
Qed.

(** The global replacement of the pattern of a key by a replacement string
    without dollar sign replaces the tokens of the key and nothing else. *)
Lemma replace_loop_key key v whole s pos :
  starts_solid key -> 36 ∉ v ->
  exists n, substituted key v n s (replace_loop (key_regex key) v whole s pos 0).
Proof.
  intros Hkey Hv. remember (length s) as len eqn:Hlen.
  revert s pos Hlen. induction len as [len IH] using lt_wf_ind. intros s pos ->.
  destruct (token_at key s) as [n|] eqn:Htok.
  - pose proof Htok as Hspec. apply token_at_spec in Hspec as (t & rest & Ht & -> & ->); [|done].
    pose proof (is_token_length _ _ Ht) as Hlen.
    destruct t as [|c t']; [cbn in Hlen; lia|].
    cbn [app length] in Htok.
    cbn [app replace_loop]. rewrite exec_at_key, Htok by done. cbn [fmap option_fmap option_map].
    rewrite getSubstitution_plain by done.
    rewrite replace_loop_skip by (rewrite length_app; lia).
    rewrite drop_app_length.
    destruct (IH (length rest)) with (s := rest) (pos := (S pos + length t')%nat)
      as [n Hn]; [rewrite length_app; cbn; lia|done|].
    exists (S n). change (c :: t' ++ rest) with ((c :: t') ++ rest).
    by constructor.
  - destruct s as [|c s'].
    + exists 0%nat. cbn [replace_loop]. rewrite exec_at_key, Htok by done. constructor.
    + cbn [replace_loop]. rewrite exec_at_key, Htok by done. cbn [fmap option_fmap option_map].
      destruct (IH (length s')) with (s := s') (pos := S pos) as [n Hn]; [cbn; lia|done|].
      exists n. constructor; [|done].
      intros t r Ht. by eapply token_at_None.
Qed.

(** * Discovery *)

Section DiscoveryMatcher.
Context {R : Type}.
Implicit Types (k : jsstring -> option jsstring -> option R).

Lemma rmatch_cons a l s cap k :
  rmatch (seq_of (a :: l)) s cap k
  = rmatch a s cap (fun s1 cap1 => rmatch (seq_of l) s1 cap1 k).
Proof. reflexivity. Qed.

Lemma rmatch_group_lazy_plus c s cap k :
  rmatch (RGroup (RLazyPlus (RClass c))) s cap k
  = match s with
    | y :: s' =>
        if cclass_test c y then
          lazy_class c (fun s3 _ => k s3 (Some (take (length s - length s3) s))) s' cap
        else None
    | [] => None
    end.
Proof.
  change (rmatch (RGroup (RLazyPlus (RClass c))) s cap k)
    with (rmatch (RClass c) s cap
            (fun s1 cap1 =>
               rmatch (RLazyStar (RClass c)) s1 cap1
                 (fun s3 _ => k s3 (Some (take (length s - length s3) s))))).
  destruct s as [|y s']; [reflexivity|].
  change (rmatch (RClass c) (y :: s') cap ?k')
    with (if cclass_test c y then k' s' cap else None).
  destruct (cclass_test c y); [|reflexivity].
  by rewrite rmatch_lazy_class.
Qed.
End DiscoveryMatcher.

Lemma take_group (y : N) (g rest : jsstring) (x : nat) :
  take (S (length g + x) - x) (y :: g ++ rest) = y :: g.
Proof.
  replace (S (length g + x) - x)%nat with (S (length g)) by lia.
  cbn [take]. f_equal. apply take_app_length.
Qed.

(** What a match of the discovery pattern looks like. *)
Lemma exec_at_placeholder s n cap :
  exec_at placeholder_regex s = Some (n, cap) ->
  exists w1 g w2 rest,
    s = str "{{" ++ w1 ++ g ++ w2 ++ str "}}" ++ rest
    /\ spaces w1 /\ spaces w2 /\ braceless g /\ g <> []
    /\ cap = Some g
    /\ n = length (str "{{" ++ w1 ++ g ++ w2 ++ str "}}").
Proof.
  unfold exec_at.
  change placeholder_regex
    with (seq_of (lit (str "{{")
                  ++ RStar (RClass CSpace)
                     :: RGroup (RLazyPlus (RClass (CNoneOf [123; 125])))
                     :: RStar (RClass CSpace) :: lit (str "}}") ++ [])).
  generalize (str "{{") (str "}}"). intros lb rb.
  rewrite rmatch_lit_then.
  destruct (strip_prefix lb s) as [s1|] eqn:H1; [|discriminate].
  apply strip_prefix_Some in H1. rewrite rmatch_cons, rmatch_star_class.
  intros H. apply star_class_sound in H as (w1 & s2 & -> & Hw1 & H).
  rewrite rmatch_cons, rmatch_group_lazy_plus in H.
  destruct s2 as [|y s2']; [discriminate|].
  destruct (cclass_test (CNoneOf [123; 125]) y) eqn:Hy; [|discriminate].
  apply lazy_class_sound in H as (g' & s3 & -> & Hg' & H).
  rewrite rmatch_cons, rmatch_star_class in H.
  apply star_class_sound in H as (w2 & s4 & -> & Hw2 & H).
  rewrite rmatch_lit_then in H.
  destruct (strip_prefix rb s4) as [s5|] eqn:H5; [|discriminate].
  apply strip_prefix_Some in H5. subst s4 s.
  change (rmatch (seq_of []) s5 ?c ?k) with (k s5 c) in H.
  cbv beta in H. injection H as <- <-.
  exists w1, (y :: g'), w2, s5. split_and!; try done.
  - by constructor.
  - f_equal. cbn [length]. rewrite length_app. apply take_group.
  - rewrite !length_app. cbn [length]. rewrite !length_app. lia.
Qed.

(** The discovery pattern never matches the empty string, so the [exec]
    loop of [extractPlaceholders] always moves forward. *)
Lemma placeholder_match_length s n cap :
  exec_at placeholder_regex s = Some (n, cap) -> (5 <= n)%nat.
Proof.
  intros (w1 & g & w2 & rest & _ & _ & _ & _ & Hg & _ & ->)%exec_at_placeholder.
  destruct g as [|y g]; [done|]. rewrite !length_app. cbn. lia.
Qed.

(** Every result of the [exec] loop is a match of the pattern at its index. *)
Lemma exec_loop_sound r s pos skip m :
  m ∈ exec_loop r s pos skip ->
  exists i, (m_index m = pos + i)%nat
            /\ exec_at r (drop i s) = Some (length (m_text m), m_group m)
            /\ m_text m = take (length (m_text m)) (drop i s).
Proof.
  revert pos skip. induction s as [|c s' IH]; intros pos skip.
  - destruct skip; cbn [exec_loop]; [|by intros ?%elem_of_nil].
    destruct (exec_at r []) as [[n cap]|] eqn:He; [|by intros ?%elem_of_nil].
    intros ->%list_elem_of_singleton. exists 0%nat. cbn [m_index m_text m_group drop take].
    pose proof (exec_at_length _ _ _ _ He) as Hn. cbn in Hn.
    replace n with 0%nat in * by lia. split_and!; [lia|done|done].
  - assert (forall p k, m ∈ exec_loop r s' (S p) k ->
              exists i, (m_index m = p + i)%nat
                        /\ exec_at r (drop i (c :: s')) = Some (length (m_text m), m_group m)
                        /\ m_text m = take (length (m_text m)) (drop i (c :: s'))) as Hrec.
    { intros p k Hm. apply IH in Hm as (i & Hi & He & Ht).
      exists (S i). split_and!; [lia|done|done]. }
    destruct skip; cbn [exec_loop]; [|by apply Hrec].
    destruct (exec_at r (c :: s')) as [[n cap]|] eqn:He; [|by apply Hrec].
    intros [->|Hm]%elem_of_cons; [|by apply Hrec in Hm].
    exists 0%nat. cbn [m_index m_text m_group drop].
    pose proof (exec_at_length _ _ _ _ He) as Hn.
    rewrite length_take, Nat.min_l by done. split_and!; [lia|done|done].
Qed.

(** ** [trim] *)

Lemma trimStart_keeps_last l c :
  is_space c = false -> exists l', trimStart (l ++ [c]) = l' ++ [c].
Proof.
  intros Hc. induction l as [|x l IH]; cbn [app trimStart].
  - rewrite Hc. by exists [].
  - destruct (is_space x); [done|]. by exists (x :: l).
Qed.

Lemma trim_starts_solid s : trim s <> [] -> starts_solid (trim s).
Proof.
  unfold trim, trimEnd. destruct (trimStart s) as [|c r] eqn:Hs; [done|].
  assert (is_space c = false) as Hc.
  { clear -Hs. induction s as [|x s IH]; [done|]. cbn [trimStart] in Hs.
    destruct (is_space x) eqn:Hx; [auto|]. by inversion Hs; subst. }
  intros _. cbn [rev].
  destruct (trimStart_keeps_last (rev r) c Hc) as [l' ->].
  by rewrite rev_unit.
Qed.

(** ** The loop of [extractPlaceholders] *)

Lemma extract_loop_spec documentXml matches seen found :
  (forall k, k ∈ seen <-> k ∈ ph_id <$> found) ->
  NoDup (ph_id <$> found) ->
  let out := extract_loop documentXml matches seen found in
  NoDup (ph_id <$> out)
  /\ (forall k, k ∈ ph_id <$> out
                <-> k ∈ ph_id <$> found
                    \/ (k <> [] /\ exists m, m ∈ matches /\ candidate m = k))
  /\ (forall p, p ∈ out ->
                p ∈ found
                \/ exists m, m ∈ matches /\ candidate m <> []
                             /\ p = placeholder_of documentXml m).
Proof.
  revert seen found. induction matches as [|m rest IH]; intros seen found Hseen Hnd.
  - cbn. split_and!; [done| |by left].
    intros k. split; [by left|]. intros [H|(_ & m & []%elem_of_nil & _)]. done.
  - cbn [extract_loop]. fold (candidate m).
    destruct (bool_decide (candidate m = []) || bool_decide (candidate m ∈ seen)) eqn:Hskip.
    + destruct (IH seen found Hseen Hnd) as (H1 & H2 & H3). split_and!; [done| |].
      * intros k. rewrite H2. split; [intros [?|(? & m' & ? & ?)]; [by left|right]|].
        { split; [done|]. exists m'. split; [by right|done]. }
        intros [?|(Hk & m' & [->|Hm']%elem_of_cons & Hc)]; [by left| |right; eauto].
        apply orb_prop in Hskip as [Hs|Hs]; apply bool_decide_eq_true in Hs.
        -- congruence.
        -- left. apply Hseen. congruence.
      * intros p Hp. destruct (H3 p Hp) as [?|(m' & ? & ?)]; [by left|right].
        exists m'. split; [by right|done].
    + apply orb_false_elim in Hskip as [Hne Hns].
      apply bool_decide_eq_false in Hne, Hns.
      fold (placeholder_of documentXml m).
      destruct (IH ({[candidate m]} ∪ seen) (found ++ [placeholder_of documentXml m]))
        as (H1 & H2 & H3).
      { intros k. rewrite fmap_app, elem_of_app, elem_of_union, elem_of_singleton.
        rewrite Hseen. cbn. rewrite list_elem_of_singleton. tauto. }
      { rewrite fmap_app. apply NoDup_app. split_and!; [done| |apply NoDup_singleton].
        intros k Hk ->%list_elem_of_singleton. apply Hns, Hseen, Hk. }
      split_and!; [done| |].
      * intros k. rewrite H2, fmap_app, elem_of_app. cbn. rewrite list_elem_of_singleton.
        split.
        -- intros [[?| ->]|(? & m' & ? & ?)]; [by left|right|right].
           ++ split; [done|]. exists m. split; [by left|done].
           ++ split; [done|]. exists m'. split; [by right|done].
        -- intros [?|(Hk & m' & [->|Hm']%elem_of_cons & Hc)]; [by left; left|by left; right|].
           right. eauto.
      * intros p Hp. destruct (H3 p Hp) as [[?| ->%list_elem_of_singleton]%elem_of_app|(m' & ? & ?)].
        -- by left.
        -- right. exists m. split_and!; [by left|done|done].
        -- right. exists m'. split; [by right|done].
Qed.

(** The ids of the placeholders of a document are pairwise distinct. *)
Lemma extractPlaceholders_NoDup documentXml :
  NoDup (ph_id <$> extractPlaceholders documentXml).
Proof.
  unfold extractPlaceholders.
  apply (extract_loop_spec documentXml _ ∅ []); [|constructor].
  intros k. cbn. rewrite elem_of_nil. set_solver.
Qed.

(** They are the trimmed captures of the matches that are not empty. *)
Lemma extractPlaceholders_ids documentXml k :
  k ∈ ph_id <$> extractPlaceholders documentXml
  <-> k <> [] /\ exists m, m ∈ exec_all placeholder_regex documentXml /\ candidate m = k.
Proof.
  unfold extractPlaceholders.
  destruct (extract_loop_spec documentXml (exec_all placeholder_regex documentXml) ∅ [])
    as (_ & H & _); [|constructor|].
  { intros k'. cbn. rewrite elem_of_nil. set_solver. }
  rewrite H. cbn. rewrite elem_of_nil. tauto.
Qed.

(** Every placeholder is the one of a match. *)
Lemma extractPlaceholders_match documentXml p :
  p ∈ extractPlaceholders documentXml ->
  exists m, m ∈ exec_all placeholder_regex documentXml /\ candidate m <> []
            /\ p = placeholder_of documentXml m.
Proof.
  unfold extractPlaceholders.
  destruct (extract_loop_spec documentXml (exec_all placeholder_regex documentXml) ∅ [])
    as (_ & _ & H); [|constructor|].
  { intros k'. cbn. rewrite elem_of_nil. set_solver. }
  intros Hp. destruct (H p Hp) as [[]%elem_of_nil|Hm]. exact Hm.
Qed.

(** Every match of the [exec] loop is a curly token of the document. *)
Lemma exec_all_placeholder documentXml m :
  m ∈ exec_all placeholder_regex documentXml ->
  exists pre w1 g w2 post,
    documentXml = pre ++ str "{{" ++ w1 ++ g ++ w2 ++ str "}}" ++ post
    /\ length pre = m_index m
    /\ m_text m = str "{{" ++ w1 ++ g ++ w2 ++ str "}}"
    /\ spaces w1 /\ spaces w2 /\ braceless g /\ g <> [] /\ m_group m = Some g.
Proof.
  intros Hm. apply exec_loop_sound in Hm as (i & Hi & He & Ht).
  pose proof (exec_at_length _ _ _ _ He) as Hlen.
  apply exec_at_placeholder in He
    as (w1 & g & w2 & rest & Hd & Hw1 & Hw2 & Hg & Hne & Hcap & Hn).
  assert (i <= length documentXml)%nat as Hi'.
  { destruct (decide (i <= length documentXml)%nat); [done|].
    rewrite drop_ge in Hd by lia. discriminate. }
  exists (take i documentXml), w1, g, w2, rest. split_and!; try done.
  - rewrite <- (take_drop i documentXml) at 1. by rewrite Hd.
  - rewrite length_take. lia.
  - rewrite Ht, Hd, Hn.
    assert (str "{{" ++ w1 ++ g ++ w2 ++ str "}}" ++ rest
            = (str "{{" ++ w1 ++ g ++ w2 ++ str "}}") ++ rest) as ->
      by (by rewrite <- !app_assoc).
    apply take_app_length.
Qed.

(** * The handlers *)

Lemma substitute_eq documentXml key rawValue :
  substitute documentXml (key, rawValue)
  = Some (js_replace documentXml (key_regex key) (encodeXml (value_of rawValue))).
Proof. unfold substitute. rewrite regexp_of_escaped. reflexivity. Qed.

Lemma substitute_all_eq documentXml entries :
  substitute_all documentXml entries
  = Some (foldl (fun xml e => js_replace xml (key_regex e.1) (encodeXml (value_of e.2)))
            documentXml entries).
Proof.
  revert documentXml. induction entries as [|[key v] rest IH]; intros documentXml.
  - reflexivity.
  - cbn [substitute_all foldl]. rewrite substitute_eq. cbn [mbind option_bind]. apply IH.
Qed.

Section Handlers.
Context `{Platform}.

Lemma finalize_handler_eq store body :
  finalize_handler store body
  = match finalize_request store body with
    | inl r => (store, r)
    | inr (d, doc, values) =>
        match filled_from (originalBuffer doc) values with
        | Value (fb, html) => (<[d := with_filled doc fb html values]> store, FinalizeOk d html)
        | Return r => (store, r)
        | Throw => (store, JsonError 500 "Failed to finalize document")
        end
    end.
Proof.
  unfold finalize_handler, finalize_request, filled_from.
  destruct (negb _ || negb _ || negb _); [reflexivity|].
  destruct (store_get store _) as [[d doc]|]; [|reflexivity].
  cbn [or_return mbind outcome_bind try_catch].
  destruct (loadAsync (originalBuffer doc)) as [zip|]; [|reflexivity].
  cbn [await mbind outcome_bind try_catch].
  destruct (zip_file zip document_xml_path) as [xmlFile|]; [|reflexivity].
  cbn [or_return mbind outcome_bind try_catch].
  destruct (async_string xmlFile) as [documentXml|]; [|reflexivity].
  cbn [await mbind outcome_bind try_catch].
  destruct (substitute_all documentXml _) as [documentXml'|]; [|reflexivity].
  cbn [await mbind outcome_bind try_catch].
  destruct (generateAsync _) as [fb|]; [|reflexivity].
  cbn [await mbind outcome_bind try_catch].
  destruct (convertToHtml fb) as [html|]; reflexivity.
Qed.

(** The only early return of the pipeline is the error about the missing
    primary part. *)
Lemma filled_from_Return original values r :
  filled_from original values = Return r -> exists status error, r = JsonError status error.
Proof.
  unfold filled_from.
  destruct (loadAsync _); [|discriminate]. cbn [await mbind outcome_bind].
  destruct (zip_file _ _); cbn [or_return mbind outcome_bind]; [|intros [= <-]; eauto].
  destruct (async_string _); [|discriminate]. cbn [await mbind outcome_bind].
  destruct (substitute_all _ _); [|discriminate]. cbn [await mbind outcome_bind].
  destruct (generateAsync _); [|discriminate]. cbn [await mbind outcome_bind].
  destruct (convertToHtml _); discriminate.
Qed.

(** A finalize either succeeds and stores the filled document, or fails
    with an error response and leaves the store as it was. *)
Lemma finalize_handler_cases store body :
  (exists d doc values fb html,
      finalize_request store body = inr (d, doc, values)
      /\ filled_from (originalBuffer doc) values = Value (fb, html)
      /\ finalize_handler store body
         = (<[d := with_filled doc fb html values]> store, FinalizeOk d html))
  \/ (exists status error,
         finalize_handler store body = (store, JsonError status error)).
Proof.
  rewrite finalize_handler_eq.
  destruct (finalize_request store body) as [r|[[d doc] values]] eqn:Hreq.
  - right. unfold finalize_request in Hreq.
    destruct (negb _ || negb _ || negb _); [inversion Hreq; eauto|].
    destruct (store_get store _) as [[d doc]|]; inversion Hreq; eauto.
  - destruct (filled_from (originalBuffer doc) values) as [[fb html]|r|] eqn:Hf.
    + left. by exists d, doc, values, fb, html.
    + right. apply filled_from_Return in Hf as (status & error & ->). eauto.
    + right. eauto.
Qed.

Lemma finalize_request_inr store body d doc values :
  finalize_request store body = inr (d, doc, values) ->
  store !! d = Some doc
  /\ get_prop body (str "docId") = JStr d
  /\ get_prop body (str "values") = values
  /\ typeof_object values = true /\ truthy values = true.
Proof.
  unfold finalize_request.
  assert (forall name,
             get_prop (if truthy body then body else JObj []) name = get_prop body name)
    as Hb.
  { intros name. destruct body; try reflexivity; cbn [truthy].
    - by destruct b.
    - destruct (negb _); reflexivity.
    - destruct (negb _); reflexivity. }
  rewrite !Hb. intros Hreq.
  destruct (truthy (get_prop body (str "docId"))); [|discriminate].
  destruct (truthy (get_prop body (str "values"))) eqn:Ht; [|discriminate].
  destruct (typeof_object (get_prop body (str "values"))) eqn:Hty; [|discriminate].
  cbn [negb orb] in Hreq. unfold store_get in Hreq.
  destruct (get_prop body (str "docId")) eqn:Hd; try discriminate.
  destruct (store !! s) as [doc'|] eqn:Hs; [|discriminate].
  cbn in Hreq. inversion Hreq; subst. done.
Qed.
End Handlers.

Section Upload.
Context `{Platform}.

Lemma upload_handler_ok docId store file store' d found preview :
  upload_handler docId store file = (store', UploadOk d found preview) ->
  exists f documentXml,
    file = Some f
    /\ read_document_xml (file_buffer f) = Some documentXml
    /\ convertToHtml (file_buffer f) = Some preview
    /\ found = extractPlaceholders documentXml
    /\ d = docId
    /\ store' = <[docId := uploaded (file_buffer f) preview found]> store.
Proof.
  unfold upload_handler.
  destruct file as [f|]; [|discriminate]. cbn [or_return mbind outcome_bind].
  destruct (negb _); [discriminate|].
  destruct (convertToHtml (file_buffer f)) as [html|] eqn:Hhtml; [|discriminate].
  cbn [await mbind outcome_bind].
  destruct (loadAsync (file_buffer f)) as [zip|] eqn:Hzip; [|discriminate].
  cbn [await mbind outcome_bind].
  destruct (zip_file zip document_xml_path) as [xmlFile|] eqn:Hfile; [|discriminate].
  cbn [or_return mbind outcome_bind].
  destruct (async_string xmlFile) as [documentXml|] eqn:Hxml; [|discriminate].
  cbn [await mbind outcome_bind try_catch]. intros [= <- <- <- <-].
  exists f, documentXml. split_and!; try done.
  unfold read_document_xml. rewrite Hzip. cbn [mbind option_bind].
  rewrite Hfile. exact Hxml.
Qed.
End Upload.

(** * The claims *)

(** ** C1: replacement of the occurrences of a curly placeholder *)

(** For a key that does not start with white space and a value without
    dollar sign, one turn of the loop replaces the tokens of the key by the
    escaped value and changes nothing else. *)
Lemma substitute_without_dollar documentXml key value :
  starts_solid key -> 36 ∉ value ->
  exists n out,
    substitute documentXml (key, JStr value) = Some out
    /\ substituted key (flat_map xml_escape value) n documentXml out.
Proof.
  intros Hkey Hvalue. rewrite substitute_eq. cbn [value_of].
  destruct (replace_loop_key key (encodeXml value) documentXml documentXml 0%nat Hkey)
    as [n Hn]; [by rewrite encodeXml_dollar|].
  exists n, (js_replace documentXml (key_regex key) (encodeXml value)).
  split; [done|]. by rewrite <- encodeXml_flat_map.
Qed.

(** The same for the id of a placeholder of the document. *)
Lemma finalize_replaces_placeholder_tokens documentXml p value :
  p ∈ extractPlaceholders documentXml -> 36 ∉ value ->
  exists n out,
    substitute_all documentXml [(ph_id p, JStr value)] = Some out
    /\ substituted (ph_id p) (flat_map xml_escape value) n documentXml out.
Proof.
  intros Hp Hvalue.
  destruct (substitute_without_dollar documentXml (ph_id p) value)
    as (n & out & Hout & Hsub); [|done|].
  { apply extractPlaceholders_match in Hp as (m & _ & Hne & ->).
    by apply trim_starts_solid. }
  exists n, out. cbn [substitute_all]. rewrite Hout. by split.
Qed.

(** C1 (the code departs from the claim): finalize replaces the tokens of a
    placeholder by the expansion of the escaped value as a replacement
    pattern, not by the escaped value itself.  On the part
    [<w:t>Fee: {{amount}}</w:t>], whose only placeholder is [amount], the
    value [$$100] is escaped to itself and substituted as [$100]; the value
    [P&L in $'000] is escaped to [P&amp;L in $&apos;000] and substituted as
    [P&amp;L in {{amount}}apos;000]. *)
Theorem finalize_expands_dollar_patterns :
  let documentXml := str "<w:t>Fee: {{amount}}</w:t>" in
  ph_id <$> extractPlaceholders documentXml = [str "amount"]
  /\ encodeXml (str "$$100") = str "$$100"
  /\ substitute_all documentXml [(str "amount", JStr (str "$$100"))]
     = Some (str "<w:t>Fee: $100</w:t>")
  /\ encodeXml (str "P&L in $'000") = str "P&amp;L in $&apos;000"
  /\ substitute_all documentXml [(str "amount", JStr (str "P&L in $'000"))]
     = Some (str "<w:t>Fee: P&amp;L in {{amount}}apos;000</w:t>")
  /\ @finalize_handler plain_platform
       {[ str "doc-1" := uploaded documentXml (str " Fee: {{amount}} ")
                           (extractPlaceholders documentXml) ]}
       (JObj [(str "docId", JStr (str "doc-1"));
              (str "values", JObj [(str "amount", JStr (str "$$100"))])])
     = ({[ str "doc-1" :=
             with_filled
               (uploaded documentXml (str " Fee: {{amount}} ")
                  (extractPlaceholders documentXml))
               (str "<w:t>Fee: $100</w:t>") (str " Fee: $100 ")
               (JObj [(str "amount", JStr (str "$$100"))]) ]},
        FinalizeOk (str "doc-1") (str " Fee: $100 ")).
Proof. vm_compute. by split_and!. Qed.

(** ** C2: the pattern used at substitution time *)





(** ** C3: what discovery finds *)

Lemma braceless_spec g : braceless g <-> (123 ∉ g) /\ (125 ∉ g).
Proof.
  induction g as [|y g IH].
  - split; [intros _; split; apply not_elem_of_nil|constructor].
  - rewrite Forall_cons, IH, !not_elem_of_cons. cbn [cclass_test existsb].
    destruct (N.eqb_spec y 123) as [->|?]; [cbn; intuition discriminate|].
    destruct (N.eqb_spec y 125) as [->|?]; cbn; [intuition discriminate|].
    intuition congruence.
Qed.

(** Every placeholder is the trimmed inner text of a curly token. *)
Lemma extractPlaceholders_token documentXml p :
  p ∈ extractPlaceholders documentXml ->
  exists pre w1 g w2 post,
    documentXml = pre ++ str "{{" ++ w1 ++ g ++ w2 ++ str "}}" ++ post
    /\ spaces w1 /\ spaces w2 /\ (123 ∉ g) /\ (125 ∉ g)
    /\ ph_id p = trim g /\ ph_id p <> [] /\ ph_label p = ph_id p.
Proof.
  intros (m & Hm & Hne & ->)%extractPlaceholders_match.
  apply exec_all_placeholder in Hm
    as (pre & w1 & g & w2 & post & Hx & _ & _ & Hw1 & Hw2 & Hg & _ & Hcap).
  apply braceless_spec in Hg as [Hg1 Hg2].
  assert (candidate m = trim g) as Hc by (unfold candidate; by rewrite Hcap).
  exists pre, w1, g, w2, post. cbn [ph_id ph_label placeholder_of].
  split_and!; try done; by rewrite <- ?Hc.
Qed.

(** A part without an opening brace has no placeholder, whatever else it
    contains. *)
Lemma extractPlaceholders_no_brace documentXml :
  123 ∉ documentXml -> extractPlaceholders documentXml = [].
Proof.
  intros Hno. destruct (extractPlaceholders documentXml) as [|p l] eqn:He; [done|].
  destruct (extractPlaceholders_token documentXml p) as (pre & w1 & g & w2 & post & -> & _).
  { rewrite He. by left. }
  destruct Hno. rewrite elem_of_app. right. by left.
Qed.




(** ** C5: the ids of the placeholders *)





(** * Finalize and the stored state *)

Section Finalize.
Context `{Platform}.

Lemma get_prop_truthy body name :
  get_prop (if truthy body then body else JObj []) name = get_prop body name.
Proof.
  destruct body; try reflexivity; cbn [truthy].
  - by destruct b.
  - destruct (negb _); reflexivity.
  - destruct (negb _); reflexivity.
Qed.

(** The request depends on the store through the document it names. *)
Lemma finalize_request_lookup store body d doc :
  get_prop body (str "docId") = JStr d -> store !! d = Some doc ->
  finalize_request store body
  = let values := get_prop body (str "values") in
    if negb (truthy (JStr d)) || negb (truthy values) || negb (typeof_object values)
    then inl (JsonError 400 "docId and values are required")
    else inr (d, doc, values).
Proof.
  intros Hd Hdoc. unfold finalize_request. rewrite !get_prop_truthy, Hd.
  cbv zeta. destruct (_ || _ || _); [reflexivity|].
  unfold store_get. by rewrite Hdoc.
Qed.

Lemma finalize_request_insert store body d doc values doc' :
  finalize_request store body = inr (d, doc, values) ->
  finalize_request (<[d := doc']> store) body = inr (d, doc', values).
Proof.
  intros Hreq. pose proof Hreq as (Hs & Hd & Hv & _)%finalize_request_inr.
  rewrite (finalize_request_lookup store body d doc Hd Hs) in Hreq.
  rewrite (finalize_request_lookup _ body d doc' Hd) by apply lookup_insert_eq.
  cbv zeta in *. destruct (_ || _ || _); [discriminate|]. by inversion Hreq.
Qed.

(** Finalizing again with the same request changes nothing more. *)
Lemma finalize_handler_twice store body :
  finalize_handler (finalize_handler store body).1 body = finalize_handler store body.
Proof.
  destruct (finalize_handler_cases store body)
    as [(d & doc & values & fb & html & Hreq & Hfill & ->)|(status & error & Herr)];
    [|by rewrite Herr].
  cbn [fst]. rewrite finalize_handler_eq.
  rewrite (finalize_request_insert _ _ _ _ _ (with_filled doc fb html values) Hreq).
  cbn [with_filled originalBuffer]. rewrite Hfill.
  unfold with_filled. cbn. by rewrite insert_insert_eq.
Qed.
End Finalize.

(** ** C4: the filled document is computed from the original bytes *)

(** C4: the response of finalize and the filled bytes and preview that it
    stores depend on the store through the original bytes of the document
    only: two stores that hold the same original bytes under the id of the
    request, whatever their previous filled versions, yield the same
    response, the same [filledBuffer] and the same [filledHtml].  Calling
    finalize twice in succession with the same request yields the same
    response, hence the same preview, and the same store both times. *)
Theorem finalize_depends_on_original_only `{Platform} store1 store2 body d doc1 doc2 :
  get_prop body (str "docId") = JStr d ->
  store1 !! d = Some doc1 -> store2 !! d = Some doc2 ->
  originalBuffer doc1 = originalBuffer doc2 ->
  (finalize_handler store1 body).2 = (finalize_handler store2 body).2
  /\ (forall html, (finalize_handler store1 body).2 = FinalizeOk d html ->
        exists fb doc1' doc2',
          (finalize_handler store1 body).1 !! d = Some doc1'
          /\ (finalize_handler store2 body).1 !! d = Some doc2'
          /\ filledBuffer doc1' = Some fb /\ filledBuffer doc2' = Some fb
          /\ filledHtml doc1' = Some html /\ filledHtml doc2' = Some html)
  /\ finalize_handler (finalize_handler store1 body).1 body = finalize_handler store1 body.
Proof.
  intros Hd H1 H2 Horig. split_and!; [| |apply finalize_handler_twice].
  - rewrite !finalize_handler_eq.
    rewrite (finalize_request_lookup store1 body d doc1 Hd H1).
    rewrite (finalize_request_lookup store2 body d doc2 Hd H2).
    cbv zeta. destruct (_ || _ || _); [reflexivity|]. rewrite <- Horig.
    by destruct (filled_from (originalBuffer doc1) _) as [[fb html]|r|].
  - intros html. rewrite !finalize_handler_eq.
    rewrite (finalize_request_lookup store1 body d doc1 Hd H1).
    rewrite (finalize_request_lookup store2 body d doc2 Hd H2).
    cbv zeta. destruct (_ || _ || _); [discriminate|]. rewrite <- Horig.
    destruct (filled_from (originalBuffer doc1) _) as [[fb html']|r|] eqn:Hf;
      cbn [fst snd]; try discriminate.
    + intros [= <-]. eexists fb, _, _. rewrite !lookup_insert_eq.
      by split_and!.
    + intros ->. by apply filled_from_Return in Hf as (status & error & ?).
Qed.

Lemma finalize_depends_on_original_only_witness :
  let body := JObj [(str "docId", JStr (str "doc-1"));
                    (str "values", JObj [(str "name", JStr (str "Acme"))])] in
  let doc1 := uploaded (str "Dear {{name}}") (str "Dear {{name}}") [] in
  let doc2 := with_filled doc1 (str "Dear Old") (str "Dear Old")
                (JObj [(str "name", JStr (str "Old"))]) in
  let store1 : documentStore := {[ str "doc-1" := doc1 ]} in
  let store2 : documentStore := {[ str "doc-1" := doc2 ]} in
  (@finalize_handler plain_platform store1 body).2
  = (@finalize_handler plain_platform store2 body).2
  /\ (@finalize_handler plain_platform store2 body).2
     = FinalizeOk (str "doc-1") (str "Dear Acme").
Proof.
  intros body doc1 doc2 store1 store2. split; [|vm_compute; reflexivity].
  refine (proj1 (@finalize_depends_on_original_only plain_platform store1 store2 body
                   (str "doc-1") doc1 doc2 _ _ _ _)); vm_compute; reflexivity.
Defined.

(** ** C7: an empty value set *)

(** C7: finalizing a document with an empty value set writes back, as the
    primary part of the filled document, the very text that was read from
    the original; when the container returns the part that was written to
    it, the primary parts of the filled and of the original document are
    identical.  This holds for every document, so in particular for one
    without placeholders. *)
Theorem finalize_empty_values `{Platform} store body d doc zip xmlFile documentXml
    filledBuffer html :
  get_prop body (str "docId") = JStr d -> d <> [] ->
  get_prop body (str "values") = JObj [] ->
  store !! d = Some doc ->
  loadAsync (originalBuffer doc) = Some zip ->
  zip_file zip document_xml_path = Some xmlFile ->
  async_string xmlFile = Some documentXml ->
  generateAsync (zip_file_set zip document_xml_path documentXml) = Some filledBuffer ->
  convertToHtml filledBuffer = Some html ->
  finalize_handler store body
  = (<[d := with_filled doc filledBuffer html (JObj [])]> store, FinalizeOk d html)
  /\ ((forall z content b,
          generateAsync (zip_file_set z document_xml_path content) = Some b ->
          read_document_xml b = Some content) ->
      read_document_xml filledBuffer = read_document_xml (originalBuffer doc)).
Proof.
  intros Hd Hne Hv Hdoc Hzip Hfile Hxml Hgen Hhtml. split.
  - rewrite finalize_handler_eq, (finalize_request_lookup store body d doc Hd Hdoc), Hv.
    cbn [truthy typeof_object negb orb]. rewrite bool_decide_eq_false_2 by done.
    cbn [negb orb]. unfold filled_from. rewrite Hzip. cbn [await mbind outcome_bind].
    rewrite Hfile. cbn [or_return mbind outcome_bind].
    rewrite Hxml. cbn [await mbind outcome_bind object_entries substitute_all].
    rewrite Hgen. cbn [await mbind outcome_bind]. by rewrite Hhtml.
  - intros Hcodec. rewrite (Hcodec _ _ _ Hgen).
    unfold read_document_xml. rewrite Hzip. cbn [mbind option_bind].
    rewrite Hfile. cbn [mbind option_bind]. by rewrite Hxml.
Qed.

Lemma finalize_empty_values_witness :
  let body := JObj [(str "docId", JStr (str "doc-1")); (str "values", JObj [])] in
  let doc := uploaded (str "<w:p>No placeholder here</w:p>") (str " No placeholder here ") [] in
  let store : documentStore := {[ str "doc-1" := doc ]} in
  @finalize_handler plain_platform store body
  = (<[str "doc-1" := with_filled doc (str "<w:p>No placeholder here</w:p>")
                        (str " No placeholder here ") (JObj [])]> store,
     FinalizeOk (str "doc-1") (str " No placeholder here "))
  /\ @read_document_xml plain_platform (str "<w:p>No placeholder here</w:p>")
     = @read_document_xml plain_platform (originalBuffer doc).
Proof.
  intros body doc store.
  pose proof (@finalize_empty_values plain_platform store body (str "doc-1") doc
                (str "<w:p>No placeholder here</w:p>")
                (str "<w:p>No placeholder here</w:p>")
                (str "<w:p>No placeholder here</w:p>")
                (str "<w:p>No placeholder here</w:p>")
                (str " No placeholder here ")) as Hthm.
  destruct Hthm as [Hfin Hread]; try (vm_compute; reflexivity).
  - vm_compute. discriminate.
  - split; [exact Hfin|]. apply Hread. intros z content b. vm_compute.
    intros [= <-]. reflexivity.
Defined.

(** ** C8: a failed finalize *)

(** C8: whatever the request and whatever step fails, a finalize that does
    not answer with the preview of a filled document leaves the store, and
    with it the [filledBuffer], the [filledHtml] and the [lastValues] of
    every document, exactly as it was. *)
Theorem failed_finalize_keeps_store `{Platform} store body :
  (forall d html, (finalize_handler store body).2 <> FinalizeOk d html) ->
  (finalize_handler store body).1 = store.
Proof.
  intros Hfail.
  destruct (finalize_handler_cases store body)
    as [(d & doc & values & fb & html & _ & _ & Hok)|(status & error & Herr)].
  - destruct (Hfail d html). by rewrite Hok.
  - by rewrite Herr.
Qed.

Lemma failed_finalize_keeps_store_witness :
  let body := JObj [(str "docId", JStr (str "doc-1"));
                    (str "values", JObj [(str "name", JStr (str "Acme"))])] in
  let doc := with_filled (uploaded (str "Dear {{name}}") (str "Dear {{name}}") [])
               (str "Dear Old") (str "Dear Old") (JObj [(str "name", JStr (str "Old"))]) in
  let store : documentStore := {[ str "doc-1" := doc ]} in
  (@finalize_handler unrendered_platform store body).2
  = JsonError 500 "Failed to finalize document"
  /\ (@finalize_handler unrendered_platform store body).1 = store.
Proof.
  intros body doc store. split; [vm_compute; reflexivity|].
  apply (@failed_finalize_keeps_store unrendered_platform store body).
  intros d html. vm_compute. discriminate.
Defined.

(** ** C10: the keys of the value set *)



(** A key that discovery never returns is substituted all the same: the
    part [{{}}] has no placeholder, and the empty key replaces it. *)
Lemma undetected_key_substituted :
  extractPlaceholders (str "Sign: {{}}") = []
  /\ substitute_all (str "Sign: {{}}") [([], JStr (str "Jane"))] = Some (str "Sign: Jane").
Proof. vm_compute. by split. Qed.

(** ** C9: download *)

Section Download.
Context `{Platform}.

Lemma upload_handler_store docId store file :
  (upload_handler docId store file).1 = store
  \/ exists doc, (upload_handler docId store file).1 = <[docId := doc]> store.
Proof.
  destruct (upload_handler docId store file) as [store' r] eqn:Hup.
  unfold upload_handler in Hup.
  destruct file as [f|]; [|inversion Hup; by left].
  cbn [or_return mbind outcome_bind] in Hup.
  destruct (negb _); [inversion Hup; by left|].
  destruct (convertToHtml _); [|inversion Hup; by left].
  cbn [await mbind outcome_bind] in Hup.
  destruct (loadAsync _); [|inversion Hup; by left].
  cbn [await mbind outcome_bind] in Hup.
  destruct (zip_file _ _); [|inversion Hup; by left].
  cbn [or_return mbind outcome_bind] in Hup.
  destruct (async_string _); [|inversion Hup; by left].
  cbn [await mbind outcome_bind try_catch] in Hup.
  inversion Hup. right. eauto.
Qed.

Lemma finalize_request_values_for store body d doc :
  store !! d = Some doc ->
  match values_for d body with
  | Some values => finalize_request store body = inr (d, doc, values)
  | None =>
      match finalize_request store body with
      | inl _ => True
      | inr (d', _, _) => d' <> d
      end
  end.
Proof.
  intros Hdoc. unfold values_for.
  destruct (get_prop body (str "docId")) as [| | | |d'| |] eqn:Hd;
    try (destruct (finalize_request store body) as [r|[[d'' doc''] v'']] eqn:Hreq;
         [done|apply finalize_request_inr in Hreq as (_ & Hd' & _); congruence]).
  cbv zeta. destruct (decide (d' = d)) as [->|Hne].
  - rewrite bool_decide_eq_true_2 by done. cbn [andb].
    rewrite (finalize_request_lookup store body d doc Hd Hdoc). cbv zeta. cbn [truthy].
    destruct (negb (bool_decide (d = []))); cbn [negb orb andb]; [|done].
    destruct (truthy _); cbn [negb orb andb]; [|done].
    destruct (typeof_object _); cbn [negb orb andb]; done.
  - rewrite bool_decide_eq_false_2 by done. cbn [andb].
    destruct (finalize_request store body) as [r|[[d'' doc''] v'']] eqn:Hreq; [done|].
    apply finalize_request_inr in Hreq as (_ & Hd' & _). congruence.
Qed.

Lemma download_after store d doc requests :
  store !! d = Some doc ->
  Forall (other_upload d) requests ->
  download_handler (foldl handle store requests) d
  = DownloadOk d (served d (originalBuffer doc)
                    (default (originalBuffer doc) (filledBuffer doc)) requests).
Proof.
  intros Hdoc Hreqs. revert store doc Hdoc.
  induction Hreqs as [|req rest Hreq Hrest IH]; intros store doc Hdoc.
  - cbn [foldl served]. unfold download_handler. by rewrite Hdoc.
  - cbn [foldl]. destruct req as [d' file|body]; cbn [handle served].
    + cbn in Hreq. apply IH.
      destruct (upload_handler_store d' store file) as [->|[doc' ->]]; [done|].
      by rewrite lookup_insert_ne.
    + pose proof (finalize_request_values_for store body d doc Hdoc) as Hv.
      rewrite finalize_handler_eq.
      destruct (values_for d body) as [values|].
      * rewrite Hv.
        destruct (filled_from (originalBuffer doc) values) as [[fb html]|r|];
          cbn [fst]; [|by apply IH..].
        rewrite (IH _ (with_filled doc fb html values)) by apply lookup_insert_eq.
        reflexivity.
      * destruct (finalize_request store body) as [r|[[d' doc'] values]];
          cbn [fst]; [by apply IH|].
        destruct (filled_from (originalBuffer doc') values) as [[fb html]|r|];
          cbn [fst]; [|by apply IH..].
        apply IH. by rewrite lookup_insert_ne.
Qed.
End Download.

(** C9: once an upload has answered with the id [d], a download of [d]
    succeeds after any sequence of finalize requests and of uploads under
    other ids: before any finalize it serves the uploaded bytes, and
    afterwards the bytes of the latest finalize of [d] that succeeded, or
    the uploaded bytes when none has. *)
Theorem download_serves_latest `{Platform} d store file store0 found preview requests :
  upload_handler d store file = (store0, UploadOk d found preview) ->
  Forall (other_upload d) requests ->
  exists f,
    file = Some f
    /\ download_handler store0 d = DownloadOk d (file_buffer f)
    /\ download_handler (foldl handle store0 requests) d
       = DownloadOk d (served d (file_buffer f) (file_buffer f) requests).
Proof.
  intros (f & documentXml & -> & _ & _ & _ & _ & ->)%upload_handler_ok Hreqs.
  exists f. split; [done|].
  assert ((<[d := uploaded (file_buffer f) preview found]> store) !! d
          = Some (uploaded (file_buffer f) preview found)) as Hdoc
    by apply lookup_insert_eq.
  split.
  - unfold download_handler. by rewrite Hdoc.
  - by rewrite (download_after _ d _ requests Hdoc Hreqs).
Qed.

Lemma download_serves_latest_witness :
  let documentXml := str "Dear {{name}}" in
  let file := Some {| originalname := str "template.docx"; file_buffer := documentXml |} in
  let found := [{| ph_id := str "name"; ph_label := str "name"; ph_context := documentXml |}] in
  let store0 : documentStore := <[str "doc-1" := uploaded documentXml documentXml found]> ∅ in
  let finalize (name : string) :=
    FinalizeRequest (JObj [(str "docId", JStr (str "doc-1"));
                           (str "values", JObj [(str "name", JStr (str name))])]) in
  let requests :=
    [finalize "Acme"%string; UploadRequest (str "doc-2") file; FinalizeRequest JNull;
     finalize "Zenith"%string] in
  @download_handler store0 (str "doc-1") = DownloadOk (str "doc-1") documentXml
  /\ @download_handler (foldl (@handle plain_platform) store0 requests) (str "doc-1")
     = DownloadOk (str "doc-1") (str "Dear Zenith").
Proof.
  intros documentXml file found store0 finalize requests.
  destruct (@download_serves_latest plain_platform (str "doc-1") ∅ file store0 found
              documentXml requests) as (f & Hf & Hfirst & Hlast).
  - vm_compute. reflexivity.
  - repeat constructor. cbn. discriminate.
  - injection Hf as <-. split; [exact Hfirst|]. rewrite Hlast. vm_compute. reflexivity.
Defined.

(** ** C6: incomplete value sets *)

(** C6 (refuted as stated): the finalize endpoint accepts a value set that
    lacks the value of a detected placeholder: it answers with a preview and
    stores a filled document in which the token is still present. *)
Lemma finalize_accepts_incomplete_values :
  let documentXml := str "Dear {{client_name}}" in
  let file := Some {| originalname := str "template.docx"; file_buffer := documentXml |} in
  let uploaded_store := (@upload_handler plain_platform (str "doc-1") ∅ file).1 in
  let body := JObj [(str "docId", JStr (str "doc-1")); (str "values", JObj [])] in
  ph_id <$> extractPlaceholders documentXml = [str "client_name"]
  /\ (@finalize_handler plain_platform uploaded_store body).2
     = FinalizeOk (str "doc-1") documentXml
  /\ (forall status error,
        (@finalize_handler plain_platform uploaded_store body).2 <> JsonError status error)
  /\ filledBuffer <$> ((@finalize_handler plain_platform uploaded_store body).1 !! str "doc-1")
     = Some (Some documentXml).
Proof. vm_compute. by split_and!. Qed.

(** C6 (amended): the completeness check is the one of [finalizeDocument] in
    the front end.  When a placeholder of the document has no value, or a
    value that is blank once trimmed, [finalizeDocument] sets the error
    message [Please provide values for: ] followed by the labels of the
    placeholders without value, separated by commas, and sends no request:
    the document store is unchanged and no filled document is produced. *)
Theorem finalizeDocument_requires_values `{Platform} app store doc p :
  documentMeta app = Some doc ->
  p ∈ dm_placeholders doc ->
  value_missing (sessions app) p = true ->
  let missing := filter (fun q => value_missing (sessions app) q = true) (dm_placeholders doc) in
  p ∈ missing
  /\ finalizeDocument app store
     = ({| documentMeta := documentMeta app; sessions := sessions app;
           finalizing := finalizing app; statusMessage := statusMessage app;
           errorMessage :=
             Some (str "Please provide values for: "
                   ++ join (str ", ") (ph_label <$> missing)) |},
        store).
Proof.
  intros Hdoc Hp Hmiss missing.
  assert (p ∈ missing) as Hin by (by apply list_elem_of_filter).
  split; [done|]. unfold finalizeDocument. rewrite Hdoc. fold missing.
  destruct missing as [|q rest]; [by apply elem_of_nil in Hin|]. reflexivity.
Qed.

Lemma finalizeDocument_requires_values_witness :
  let client := {| ph_id := str "client_name"; ph_label := str "client_name"; ph_context := [] |} in
  let date := {| ph_id := str "date"; ph_label := str "date"; ph_context := [] |} in
  let doc := {| dm_docId := str "doc-1"; dm_placeholders := [client; date];
                dm_previewHtml := []; dm_filledPreviewHtml := None |} in
  let app := {| documentMeta := Some doc;
                sessions := {[ str "client_name" := {| ps_messages := []; ps_value := str "Acme" |};
                               str "date" := {| ps_messages := []; ps_value := str "  " |} ]};
                finalizing := false; statusMessage := None; errorMessage := None |} in
  errorMessage (@finalizeDocument plain_platform app ∅).1
  = Some (str "Please provide values for: date")
  /\ (@finalizeDocument plain_platform app ∅).2 = ∅.
Proof.
  intros client date doc app.
  destruct (@finalizeDocument_requires_values plain_platform app ∅ doc date) as [_ Heq].
  - reflexivity.
  - right. left.
  - vm_compute. reflexivity.
  - rewrite Heq. split; [vm_compute; reflexivity|reflexivity].
Defined.

(** * Further properties of the code *)

(** * More about the matcher and the replacement *)

Section ClassRuns.
Context {R : Type}.
Implicit Types (k : jsstring -> option jsstring -> option R).

(** When the continuation rejects every input that starts in the class, the
    star of the class takes the whole run. *)
Lemma star_class_whole_run c k s cap :
  (forall y s', cclass_test c y = true -> k (y :: s') cap = None) ->
  star_class c k s cap = k (dropwhile_class c s) cap.
Proof.
  intros Hk. induction s as [|y s' IH]; cbn [star_class dropwhile_class]; [reflexivity|].
  destruct (cclass_test c y) eqn:Hy; [|reflexivity].
  rewrite IH. destruct (k (dropwhile_class c s') cap); [reflexivity|]. by apply Hk.
Qed.
End ClassRuns.

Lemma dropwhile_class_split c s :
  exists run, Forall (fun y => cclass_test c y = true) run
              /\ s = run ++ dropwhile_class c s
              /\ match dropwhile_class c s with
                 | y :: _ => cclass_test c y = false
                 | [] => True
                 end.
Proof.
  induction s as [|y s IH]; [by exists []|]. cbn [dropwhile_class].
  destruct (cclass_test c y) eqn:Hy; [|exists []; by rewrite Hy].
  destruct IH as (run & Hrun & Hs & Hhead). exists (y :: run).
  split_and!; [by constructor|cbn; by f_equal|done].
Qed.

(** ** Literal patterns *)

Lemma exec_at_lit p s :
  exec_at (seq_of (lit p)) s
  = if bool_decide (p `prefix_of` s) then Some (length p, None) else None.
Proof.
  unfold exec_at. rewrite rmatch_lit. case_bool_decide as Hp; [|reflexivity].
  destruct Hp as [rest ->]. rewrite drop_app_length, length_app. do 2 f_equal. lia.
Qed.

(** ** The length of a replacement *)

(** When no expansion of the template is longer than the match it stands
    for, the result is no longer than the subject. *)
Lemma replace_loop_length r template whole s pos :
  (forall t n cap p, exec_at r t = Some (n, cap) ->
     (length (getSubstitution (take n t) whole p (captures_of r cap) template) <= n)%nat) ->
  (length (replace_loop r template whole s pos 0) <= length s)%nat.
Proof.
  intros Hsub. remember (length s) as len eqn:Hlen.
  revert s pos Hlen. induction len as [len IH] using lt_wf_ind. intros s pos ->.
  destruct s as [|c s']; cbn [replace_loop].
  - destruct (exec_at r []) as [[n cap]|] eqn:He; [|done].
    pose proof (Hsub _ _ _ pos He) as Hn. pose proof (exec_at_length _ _ _ _ He) as Hn'.
    cbn [length] in Hn'. destruct n; [|lia]. by rewrite app_nil_r.
  - destruct (exec_at r (c :: s')) as [[n cap]|] eqn:He.
    + pose proof (Hsub _ _ _ pos He) as Hn. pose proof (exec_at_length _ _ _ _ He) as Hn'.
      cbn [length] in Hn'. rewrite length_app. destruct n as [|n'].
      * cbn [length].
        pose proof (IH (length s') ltac:(cbn; lia) s' (S pos) eq_refl). lia.
      * rewrite replace_loop_skip by lia.
        pose proof (IH (length (drop n' s')) ltac:(rewrite length_drop; cbn; lia)
                      (drop n' s') (S pos + n')%nat eq_refl) as Hrec.
        rewrite length_drop in Hrec. cbn [length]. lia.
    + cbn [length].
      pose proof (IH (length s') ltac:(cbn; lia) s' (S pos) eq_refl). lia.
Qed.

(** ** [trim] *)

Lemma trimStart_solid s :
  match trimStart s with
  | c :: _ => is_space c = false
  | [] => True
  end.
Proof.
  induction s as [|x s IH]; [done|]. cbn [trimStart].
  destruct (is_space x) eqn:Hx; [done|]. by rewrite Hx.
Qed.

Lemma trimStart_id s :
  match s with c :: _ => is_space c = false | [] => True end -> trimStart s = s.
Proof. destruct s as [|c s]; [done|]. cbn. by intros ->. Qed.

Lemma trim_idempotent s : trim (trim s) = trim s.
Proof.
  unfold trim at 1. rewrite (trimStart_id (trim s)).
  - unfold trim, trimEnd. rewrite rev_involutive.
    rewrite (trimStart_id (trimStart _)); [done|apply trimStart_solid].
  - destruct (trim s) as [|c r] eqn:Ht; [done|].
    assert (starts_solid (trim s)) as Hs by (apply trim_starts_solid; by rewrite Ht).
    by rewrite Ht in Hs.
Qed.

(** What [trim] removes is white space on both sides. *)
Lemma trim_split s : exists l r, spaces l /\ spaces r /\ s = l ++ trim s ++ r.
Proof.
  destruct (trimStart_split s) as (l & Hl & Hs).
  destruct (trimStart_split (rev (trimStart s))) as (r & Hr & Hrev).
  exists l, (rev r). split_and!; [done|by apply Forall_rev|].
  rewrite Hs at 1. f_equal. unfold trim, trimEnd.
  apply (f_equal (@rev N)) in Hrev. rewrite rev_involutive, rev_app_distr in Hrev.
  done.
Qed.

(** * [encodeXml] and [decodeXmlEntities] *)

Lemma clash_not_prefix p t rest : clash p t = true -> ~ p `prefix_of` (t ++ rest).
Proof.
  revert t. induction p as [|a p IH]; intros [|b t]; cbn [clash app]; try discriminate.
  intros [Hab|Hc]%orb_prop Hp.
  - apply prefix_cons_inv_1 in Hp. subst. by rewrite N.eqb_refl in Hab.
  - apply prefix_cons_inv_2 in Hp. by apply (IH t).
Qed.

(** Replacing a literal in a text made of blocks, when the literal can only
    start at a block that spells it. *)
Lemma replace_lit_blocks p c (f : N -> jsstring) v whole pos :
  p <> [] -> c <> 36 ->
  (forall x t rest, t <> [] -> t `suffix_of` f x -> p `prefix_of` (t ++ rest) ->
                    t = f x /\ f x = p) ->
  replace_loop (seq_of (lit p)) [c] whole (flat_map f v) pos 0
  = flat_map (fun x => if bool_decide (f x = p) then [c] else f x) v.
Proof.
  intros Hp Hc Hblock. revert pos. induction v as [|x v IH]; intros pos.
  - cbn [flat_map replace_loop]. rewrite exec_at_lit.
    rewrite bool_decide_eq_false_2; [done|].
    intros [k Hk]. destruct p; [done|discriminate].
  - cbn [flat_map].
    assert (forall t q, t `suffix_of` f x -> (t = f x -> f x <> p) ->
              replace_loop (seq_of (lit p)) [c] whole (t ++ flat_map f v) q 0
              = t ++ replace_loop (seq_of (lit p)) [c] whole (flat_map f v)
                      (q + length t) 0) as Hwalk.
    { induction t as [|a t IHt]; intros q Hsuf Hne.
      - cbn [app length]. by rewrite Nat.add_0_r.
      - cbn [app replace_loop]. rewrite exec_at_lit.
        rewrite bool_decide_eq_false_2.
        + rewrite IHt.
          * cbn [app length]. by rewrite Nat.add_succ_r.
          * by apply suffix_cons_l in Hsuf.
          * intros ->. apply suffix_length in Hsuf. cbn in Hsuf. lia.
        + intros Hpre. destruct (Hblock x (a :: t) (flat_map f v)) as [E1 E2]; [done..|].
          by apply Hne. }
    case_bool_decide as Hfx.
    + destruct p as [|a p']; [done|]. rewrite Hfx.
      cbn [app replace_loop]. rewrite exec_at_lit.
      rewrite bool_decide_eq_true_2 by (by eexists).
      rewrite getSubstitution_plain
        by (apply not_elem_of_cons; split; [congruence|apply not_elem_of_nil]).
      cbn [length]. rewrite replace_loop_skip by (rewrite length_app; lia).
      rewrite drop_app_length. by rewrite IH.
    + rewrite Hwalk; [|done|done]. by rewrite IH.
Qed.

(** The five code units that [encodeXml] escapes. *)
Ltac special_cases x :=
  destruct (N.eqb_spec x 38) as [->|?];
  [|destruct (N.eqb_spec x 60) as [->|?];
    [|destruct (N.eqb_spec x 62) as [->|?];
      [|destruct (N.eqb_spec x 34) as [->|?];
        [|destruct (N.eqb_spec x 39) as [->|?]]]]].

(** The entities, written out. *)
Ltac entities_written :=
  change (xml_escape 38) with [38; 97; 109; 112; 59] in *;
  change (xml_escape 60) with [38; 108; 116; 59] in *;
  change (xml_escape 62) with [38; 103; 116; 59] in *;
  change (xml_escape 34) with [38; 113; 117; 111; 116; 59] in *;
  change (xml_escape 39) with [38; 97; 112; 111; 115; 59] in *.

(** The suffixes of a text that is written out. *)
Ltac suffix_cases H :=
  repeat (apply suffix_cons_inv in H as [H|H]; [injection H as -> ->|]);
  try (apply suffix_nil_inv in H; discriminate H).

(** One pass of [decodeXmlEntities] over a partially escaped text decodes
    the entity of the pass and nothing else. *)
Lemma decode_pass todo todo' c whole pos v :
  existsb (N.eqb 38) todo = true ->
  forallb (fun x => existsb (N.eqb x) [38; 60; 62; 34; 39]) todo = true ->
  existsb (N.eqb c) todo = true ->
  (forall x, existsb (N.eqb x) todo' = existsb (N.eqb x) todo && negb (x =? c)) ->
  replace_loop (seq_of (lit (xml_escape c))) [c] whole
    (flat_map (partial_escape todo) v) pos 0
  = flat_map (partial_escape todo') v.
Proof.
  intros Hamp Hall Hc Htodo'.
  assert (forall x, existsb (N.eqb x) todo = true ->
                    x = 38 \/ x = 60 \/ x = 62 \/ x = 34 \/ x = 39) as Hspecial.
  { intros x (y & Hy & ->%N.eqb_eq)%existsb_exists.
    rewrite forallb_forall in Hall. specialize (Hall _ Hy).
    cbn [existsb] in Hall.
    repeat (apply orb_prop in Hall as [->%N.eqb_eq|Hall]; [tauto|]). discriminate. }
  assert (c = 38 \/ c = 60 \/ c = 62 \/ c = 34 \/ c = 39) as Hcs by auto.
  rewrite replace_lit_blocks.
  - apply flat_map_ext. intros x. unfold partial_escape. rewrite Htodo'.
    destruct (existsb (N.eqb x) todo) eqn:Hx; cbn [andb].
    + destruct (N.eqb_spec x c) as [->|Hne]; cbn [negb].
      * by rewrite bool_decide_eq_true_2.
      * rewrite bool_decide_eq_false_2; [done|].
        apply Hspecial in Hx.
        destruct Hx as [->|[->|[->|[->| ->]]]], Hcs as [->|[->|[->|[->| ->]]]];
          first [done|discriminate].
    + rewrite bool_decide_eq_false_2; [done|].
      destruct Hcs as [->|[->|[->|[->| ->]]]]; discriminate.
  - destruct Hcs as [->|[->|[->|[->| ->]]]]; discriminate.
  - destruct Hcs as [->|[->|[->|[->| ->]]]]; discriminate.
  - intros x t rest Hne Hsuf Hpre. unfold partial_escape in *.
    destruct (existsb (N.eqb x) todo) eqn:Hx.
    + apply Hspecial in Hx. destruct t as [|a t]; [done|].
      destruct Hx as [->|[->|[->|[->| ->]]]], Hcs as [->|[->|[->|[->| ->]]]];
        entities_written; suffix_cases Hsuf;
        first [by split|exfalso; revert Hpre; apply clash_not_prefix; reflexivity].
    + destruct t as [|a t]; [done|].
      apply suffix_cons_inv in Hsuf as [[= -> ->]|Hsuf];
        [|apply suffix_nil_inv in Hsuf; discriminate].
      exfalso. assert (x = 38) as ->.
      { destruct Hcs as [->|[->|[->|[->| ->]]]];
          by apply prefix_cons_inv_1 in Hpre. }
      congruence.
Qed.

(** The text before any pass is the fully escaped one, the text after the
    last pass the value itself. *)
Lemma partial_escape_all v :
  flat_map (partial_escape [38; 60; 62; 34; 39]) v = flat_map xml_escape v.
Proof.
  apply flat_map_ext. intros x. unfold partial_escape, xml_escape. cbn [existsb].
  special_cases x; reflexivity.
Qed.

Lemma partial_escape_none v : flat_map (partial_escape []) v = v.
Proof. induction v as [|x v IH]; [done|]. cbn. by rewrite IH. Qed.

Lemma decode_entity todo todo' c v :
  existsb (N.eqb 38) todo = true ->
  forallb (fun x => existsb (N.eqb x) [38; 60; 62; 34; 39]) todo = true ->
  existsb (N.eqb c) todo = true ->
  forallb (fun x => bool_decide (existsb (N.eqb x) todo'
                                 = existsb (N.eqb x) todo && negb (x =? c)))
    [38; 60; 62; 34; 39] = true ->
  forallb (fun x => existsb (N.eqb x) [38; 60; 62; 34; 39]) todo' = true ->
  js_replace (flat_map (partial_escape todo) v) (seq_of (lit (xml_escape c))) [c]
  = flat_map (partial_escape todo') v.
Proof.
  intros Hamp Hall Hc Hfive Hall'. apply decode_pass; [done..|].
  intros x. rewrite forallb_forall in Hfive.
  destruct (decide (x ∈ [38; 60; 62; 34; 39])) as [Hin|Hout].
  - apply list_elem_of_In, Hfive in Hin. by apply bool_decide_eq_true in Hin.
  - assert (forall l, forallb (fun x => existsb (N.eqb x) [38; 60; 62; 34; 39]) l = true ->
                      existsb (N.eqb x) l = false) as Hnot.
    { intros l Hl. apply not_true_is_false.
      intros (y & Hy & ->%N.eqb_eq)%existsb_exists.
      rewrite forallb_forall in Hl. apply Hl in Hy.
      apply existsb_exists in Hy as (z & Hz & ->%N.eqb_eq).
      by apply Hout, list_elem_of_In. }
    by rewrite !Hnot.
Qed.

(** The five entity passes of [decodeXmlEntities], in its order, undo
    [encodeXml]. *)
Lemma entity_passes_encodeXml value :
  js_replace
    (js_replace
       (js_replace
          (js_replace
             (js_replace (encodeXml value) (seq_of (lit (str "&quot;"))) [34])
             (seq_of (lit (str "&apos;"))) [39])
          (seq_of (lit (str "&lt;"))) [60])
       (seq_of (lit (str "&gt;"))) [62])
    (seq_of (lit (str "&amp;"))) [38]
  = value.
Proof.
  rewrite encodeXml_flat_map, <- partial_escape_all.
  change (str "&quot;") with (xml_escape 34).
  change (str "&apos;") with (xml_escape 39).
  change (str "&lt;") with (xml_escape 60).
  change (str "&gt;") with (xml_escape 62).
  change (str "&amp;") with (xml_escape 38).
  rewrite (decode_entity _ [38; 60; 62; 39] 34) by done.
  rewrite (decode_entity _ [38; 60; 62] 39) by done.
  rewrite (decode_entity _ [38; 62] 60) by done.
  rewrite (decode_entity _ [38] 62) by done.
  rewrite (decode_entity _ [] 38) by done.
  apply partial_escape_none.
Qed.

(** What is left of [decodeXmlEntities] after them is the handling of white
    space. *)
Lemma decode_entities_of_encoded value :
  decodeXmlEntities (encodeXml value)
  = trim (js_replace value (RPlus (RClass CSpace)) (str " ")).
Proof. unfold decodeXmlEntities. cbv zeta. by rewrite entity_passes_encodeXml. Qed.

(** * White space *)

Lemma rmatch_class {R} c x s cap (k : jsstring -> option jsstring -> option R) :
  rmatch (RClass c) (x :: s) cap k = if cclass_test c x then k s cap else None.
Proof. reflexivity. Qed.

Lemma rmatch_seq {R} a b s cap (k : jsstring -> option jsstring -> option R) :
  rmatch (RSeq a b) s cap k = rmatch a s cap (fun s1 cap1 => rmatch b s1 cap1 k).
Proof. reflexivity. Qed.

(** When the continuation accepts every input, the star of a class takes the
    longest run. *)
Lemma star_class_greedy {R} c (k : jsstring -> option jsstring -> option R) s cap :
  (forall s', is_Some (k s' cap)) ->
  star_class c k s cap = k (dropwhile_class c s) cap.
Proof.
  intros Hk. induction s as [|y s IH]; cbn [star_class dropwhile_class]; [done|].
  destruct (cclass_test c y); [|done]. rewrite IH.
  by destruct (Hk (dropwhile_class c s)) as [r ->].
Qed.

Lemma dropwhile_space s : dropwhile_class CSpace s = trimStart s.
Proof. induction s as [|y s IH]; [done|]. cbn. by rewrite IH. Qed.

Lemma exec_at_spaces s :
  exec_at (RPlus (RClass CSpace)) s
  = match s with
    | c :: s' =>
        if is_space c then Some ((length s - length (trimStart s'))%nat, None) else None
    | [] => None
    end.
Proof.
  unfold exec_at, RPlus. rewrite rmatch_seq. destruct s as [|c s']; [done|].
  rewrite rmatch_class. cbn [cclass_test]. destruct (is_space c); [|done].
  rewrite rmatch_star_class, star_class_greedy by (intros; by eexists).
  by rewrite dropwhile_space.
Qed.

Lemma collapse_true s : collapse true s = collapse false (trimStart s).
Proof.
  induction s as [|c s IH]; [done|]. cbn [collapse trimStart].
  destruct (is_space c) eqn:Hc; [done|]. cbn [collapse]. by rewrite Hc.
Qed.

(** [value.replace(/\s+/g, ' ')] collapses the white space. *)
Lemma replace_spaces whole s pos :
  replace_loop (RPlus (RClass CSpace)) (str " ") whole s pos 0 = collapse false s.
Proof.
  remember (length s) as len eqn:Hlen. revert s pos Hlen.
  induction len as [len IH] using lt_wf_ind. intros s pos ->.
  destruct s as [|c s']; cbn [replace_loop]; rewrite exec_at_spaces; [done|].
  cbn [collapse]. destruct (is_space c) eqn:Hc.
  - destruct (trimStart_split s') as (w & Hw & Hs).
    replace (length (c :: s') - length (trimStart s'))%nat with (S (length w)).
    2:{ rewrite Hs at 1. cbn [length]. rewrite length_app. lia. }
    rewrite getSubstitution_plain by (by apply no_dollar_check).
    rewrite replace_loop_skip by (rewrite Hs at 1; rewrite length_app; lia).
    rewrite (IH (length (drop (length w) s'))) with (s := drop (length w) s');
      [|rewrite length_drop; cbn [length]; lia|done].
    rewrite collapse_true. rewrite Hs at 1. by rewrite drop_app_length.
  - f_equal. by apply (IH (length s')); [cbn; lia|].
Qed.

Lemma js_replace_spaces s :
  js_replace s (RPlus (RClass CSpace)) (str " ") = collapse false s.
Proof. apply replace_spaces. Qed.

Lemma collapse_single_spaced s :
  single_spaced (collapse false s) = true
  /\ single_spaced (collapse true s) = true
  /\ match collapse true s with d :: _ => is_space d = false | [] => True end.
Proof.
  induction s as [|c s (IH1 & IH2 & IH3)]; [done|]. cbn [collapse].
  destruct (is_space c) eqn:Hc.
  - split_and!; [|done..]. cbn [single_spaced]. rewrite IH2.
    destruct (collapse true s) as [|d t]; [done|]. by rewrite IH3.
  - cbn [single_spaced]. rewrite Hc, IH1. done.
Qed.

Lemma single_spaced_app a b :
  single_spaced (a ++ b) = true -> single_spaced a = true /\ single_spaced b = true.
Proof.
  induction a as [|c a IH]; [done|]. cbn [app single_spaced].
  intros [Hc Hrest]%andb_prop. destruct (IH Hrest) as [Ha Hb]. split; [|done].
  rewrite Ha, andb_true_r. destruct (is_space c); [|done].
  apply andb_prop in Hc as [-> Hnext]. destruct a; [done|exact Hnext].
Qed.

Lemma single_spaced_trim s : single_spaced s = true -> single_spaced (trim s) = true.
Proof.
  destruct (trim_split s) as (l & r & _ & _ & Hs). rewrite Hs at 1.
  intros [_ [H _]%single_spaced_app]%single_spaced_app. exact H.
Qed.

Lemma collapse_id s : single_spaced s = true -> collapse false s = s.
Proof.
  induction s as [|c s IH]; [done|]. cbn [single_spaced collapse].
  intros [Hc Hs]%andb_prop. destruct (is_space c) eqn:Hsp.
  - apply andb_prop in Hc as [->%N.eqb_eq Hnext]. f_equal.
    rewrite collapse_true, trimStart_id; [by apply IH|].
    destruct s; [done|]. by apply negb_true_iff.
  - f_equal. by apply IH.
Qed.

Lemma trim_length s : (length (trim s) <= length s)%nat.
Proof.
  destruct (trim_split s) as (l & r & _ & _ & Hs). rewrite Hs at 2.
  rewrite !length_app. lia.
Qed.

Lemma collapse_length b s : (length (collapse b s) <= length s)%nat.
Proof.
  revert b. induction s as [|c s IH]; intros b; [done|]. cbn [collapse].
  destruct (is_space c), b; cbn [length];
    try (pose proof (IH true)); try (pose proof (IH false)); lia.
Qed.

(** ** [decodeXmlEntities] *)

Lemma replace_lit_length p c whole s pos :
  c <> 36 -> p <> [] ->
  (length (replace_loop (seq_of (lit p)) [c] whole s pos 0) <= length s)%nat.
Proof.
  intros Hc Hp. apply replace_loop_length. intros t n cap q.
  rewrite exec_at_lit. case_bool_decide; [|done]. intros [= <- _].
  rewrite getSubstitution_plain
    by (apply not_elem_of_cons; split; [congruence|apply not_elem_of_nil]).
  destruct p; [done|cbn; lia].
Qed.

Lemma js_replace_lit_length p c s :
  c <> 36 -> p <> [] -> (length (js_replace s (seq_of (lit p)) [c]) <= length s)%nat.
Proof. apply replace_lit_length. Qed.

(** X1: [decodeXmlEntities] after [encodeXml] gives the value back, up to its
    white space: the runs of white space are single spaces and the ends are
    trimmed. *)
Theorem decodeXmlEntities_encodeXml value :
  decodeXmlEntities (encodeXml value) = trim (collapse false value).
Proof. by rewrite decode_entities_of_encoded, js_replace_spaces. Qed.

(** The result of [decodeXmlEntities] has no white space but single spaces,
    none of them at its ends. *)
Lemma decode_normal value :
  single_spaced (decodeXmlEntities value) = true
  /\ trim (decodeXmlEntities value) = decodeXmlEntities value.
Proof.
  unfold decodeXmlEntities. cbv zeta. rewrite js_replace_spaces. split.
  - apply single_spaced_trim, collapse_single_spaced.
  - apply trim_idempotent.
Qed.

(** X2: a value in that form comes back unchanged from [encodeXml] followed by
    [decodeXmlEntities]. *)
Theorem decodeXmlEntities_encodeXml_id value :
  single_spaced value = true -> trim value = value ->
  decodeXmlEntities (encodeXml value) = value.
Proof.
  intros Hs Ht. by rewrite decode_entities_of_encoded, js_replace_spaces, collapse_id.
Qed.

Lemma decodeXmlEntities_encodeXml_id_witness :
  decodeXmlEntities (encodeXml (str "Tom & <Jerry>")) = str "Tom & <Jerry>".
Proof. apply decodeXmlEntities_encodeXml_id; reflexivity. Defined.

(** [decodeXmlEntities] never makes a text longer. *)
Lemma decode_length value :
  (length (decodeXmlEntities value) <= length value)%nat.
Proof.
  unfold decodeXmlEntities. cbv zeta. rewrite js_replace_spaces.
  etrans; [apply trim_length|]. etrans; [apply collapse_length|].
  repeat (etrans; [apply js_replace_lit_length; done|]). done.
Qed.

(** * Tags *)

Lemma exec_at_tag s :
  exec_at tag_regex s
  = match s with
    | x0 :: x :: s2 =>
        if (x0 =? 60) && negb (x =? 62) then
          match dropwhile_class (CNoneOf [62]) s2 with
          | y :: rest =>
              if y =? 62 then Some ((length s - length rest)%nat, None) else None
          | [] => None
          end
        else None
    | _ => None
    end.
Proof.
  unfold exec_at, tag_regex, RPlus. rewrite rmatch_cons.
  destruct s as [|x0 [|x s2]]; [done| |].
  - rewrite rmatch_class. cbn [cclass_test]. by destruct (x0 =? 60).
  - rewrite rmatch_class. cbn [cclass_test]. destruct (x0 =? 60); [|done].
    rewrite rmatch_cons, rmatch_seq, rmatch_class. cbn [cclass_test existsb andb].
    rewrite orb_false_r. destruct (x =? 62); [done|]. cbn [negb].
    rewrite rmatch_star_class, star_class_whole_run.
    + destruct (dropwhile_class (CNoneOf [62]) s2) as [|y rest]; [done|].
      rewrite rmatch_cons, rmatch_class. cbn [cclass_test]. done.
    + intros y s' Hy. rewrite rmatch_cons, rmatch_class. cbn [cclass_test existsb] in *.
      rewrite orb_false_r in Hy. apply negb_true_iff in Hy. by rewrite Hy.
Qed.

Lemma dropwhile_not_gt s :
  match dropwhile_class (CNoneOf [62]) s with
  | [] => 62 ∉ s
  | y :: _ => y = 62 /\ 62 ∈ s
  end.
Proof.
  induction s as [|x s IH]; cbn [dropwhile_class cclass_test existsb].
  - apply not_elem_of_nil.
  - rewrite orb_false_r. destruct (N.eqb_spec x 62) as [->|Hx]; cbn [negb].
    + split; [done|apply list_elem_of_here].
    + destruct (dropwhile_class (CNoneOf [62]) s).
      * apply not_elem_of_cons. split; [congruence|done].
      * destruct IH as [-> Hin]. split; [done|by apply list_elem_of_further].
Qed.

(** A tag has three code units at least, and no capture. *)
Lemma exec_at_tag_Some s n cap :
  exec_at tag_regex s = Some (n, cap) -> (3 <= n <= length s)%nat /\ cap = None.
Proof.
  rewrite exec_at_tag. destruct s as [|x0 [|x s2]]; [done..|].
  destruct (_ && _); [|done].
  destruct (dropwhile_class_split (CNoneOf [62]) s2) as (run & _ & Hs & _).
  destruct (dropwhile_class (CNoneOf [62]) s2) as [|y rest]; [done|].
  destruct (y =? 62); [|done]. intros [= <- <-]. split; [|done].
  rewrite Hs. cbn [length]. rewrite length_app. cbn [length]. lia.
Qed.

(** Where no tag starts. *)
Lemma exec_at_tag_None c t :
  exec_at tag_regex (c :: t) = None
  <-> c <> 60 \/ match t with [] => True | x :: _ => x = 62 \/ 62 ∉ t end.
Proof.
  rewrite exec_at_tag. destruct t as [|x s2].
  - split; [by right|done].
  - destruct (N.eqb_spec c 60) as [->|Hc]; cbn [andb]; [|split; [by left|done]].
    destruct (N.eqb_spec x 62) as [->|Hx]; cbn [negb]; [split; [right; by left|done]|].
    pose proof (dropwhile_not_gt s2) as Hd.
    destruct (dropwhile_class (CNoneOf [62]) s2) as [|y rest].
    + split; [|done]. intros _. right. right.
      apply not_elem_of_cons. split; [congruence|done].
    + destruct Hd as [-> Hin]. cbn [N.eqb Pos.eqb]. split; [done|].
      intros [?|[?|Hout]]; [done..|]. exfalso. apply Hout.
      by apply list_elem_of_further.
Qed.

Lemma tag_free_nil : tag_free [].
Proof. intros i. by rewrite drop_nil. Qed.

Lemma tag_free_cons c t :
  exec_at tag_regex (c :: t) = None -> tag_free t -> tag_free (c :: t).
Proof. intros Hc Ht [|i]; [exact Hc|apply Ht]. Qed.

(** The code units of a replacement come from the subject or from the
    replacement string. *)
Lemma replace_loop_elem r template whole s pos x :
  36 ∉ template ->
  x ∈ replace_loop r template whole s pos 0 -> x ∈ template \/ x ∈ s.
Proof.
  intros Ht. remember (length s) as len eqn:Hlen. revert s pos Hlen.
  induction len as [len IH] using lt_wf_ind. intros s pos ->.
  destruct s as [|c s']; cbn [replace_loop].
  - destruct (exec_at r []) as [[n cap]|]; [|by right].
    rewrite getSubstitution_plain by done. destruct n; rewrite app_nil_r; by left.
  - destruct (exec_at r (c :: s')) as [[n cap]|] eqn:He.
    + rewrite getSubstitution_plain by done. rewrite elem_of_app.
      intros [?|Hin]; [by left|]. apply exec_at_length in He. cbn [length] in He.
      destruct n as [|n'].
      * apply elem_of_cons in Hin as [->|Hin]; [right; apply list_elem_of_here|].
        apply (IH (length s')) in Hin as [?|?]; [by left| |cbn; lia|done].
        right. by apply list_elem_of_further.
      * rewrite replace_loop_skip in Hin by lia.
        apply (IH (length (drop n' s'))) in Hin as [?|Hin];
          [by left| |rewrite length_drop; cbn; lia|done].
        right. apply list_elem_of_further.
        rewrite <- (take_drop n' s'). apply elem_of_app. by right.
    + intros [->|Hin]%elem_of_cons; [right; apply list_elem_of_here|].
      apply (IH (length s')) in Hin as [?|?]; [by left| |cbn; lia|done].
      right. by apply list_elem_of_further.
Qed.

Lemma strip_loop_tag_free whole s pos :
  tag_free (replace_loop tag_regex (str " ") whole s pos 0).
Proof.
  remember (length s) as len eqn:Hlen. revert s pos Hlen.
  induction len as [len IH] using lt_wf_ind. intros s pos ->.
  destruct s as [|c s']; cbn [replace_loop].
  - rewrite exec_at_tag. apply tag_free_nil.
  - destruct (exec_at tag_regex (c :: s')) as [[n cap]|] eqn:He.
    + apply exec_at_tag_Some in He as [Hn ->]. cbn [length] in Hn.
      rewrite getSubstitution_plain by (by apply no_dollar_check).
      destruct n as [|n']; [lia|]. rewrite replace_loop_skip by lia.
      apply (tag_free_cons 32); [apply exec_at_tag_None; by left|].
      apply (IH (length (drop n' s'))); [rewrite length_drop; cbn; lia|done].
    + apply tag_free_cons; [|by apply (IH (length s')); [cbn; lia|]].
      apply exec_at_tag_None. apply exec_at_tag_None in He as [?|He]; [by left|].
      right. destruct s' as [|x s2].
      { cbn [replace_loop]. by rewrite exec_at_tag. }
      destruct He as [->|Hout].
      * cbn [replace_loop]. rewrite exec_at_tag. destruct s2; by left.
      * destruct (replace_loop tag_regex (str " ") whole (x :: s2) (S pos) 0)
          as [|y out] eqn:Hrun; [done|].
        right. intros Hin. rewrite <- Hrun in Hin.
        apply replace_loop_elem in Hin as [Hin|Hin]; [|done|by apply no_dollar_check].
        by apply list_elem_of_singleton in Hin.
Qed.

(** ** [stripXml] *)

(** X3: no tag is left in the result of [stripXml], so that a second pass
    changes nothing. *)
Theorem stripXml_idempotent value :
  tag_free (stripXml value) /\ stripXml (stripXml value) = stripXml value.
Proof.
  assert (tag_free (stripXml value)) as Hfree by apply strip_loop_tag_free.
  split; [done|]. by apply js_replace_no_match.
Qed.

(** [stripXml] never makes a text longer. *)
Lemma strip_length value : (length (stripXml value) <= length value)%nat.
Proof.
  apply replace_loop_length. intros t n cap p [Hn _]%exec_at_tag_Some.
  rewrite getSubstitution_plain by (by apply no_dollar_check). cbn. lia.
Qed.

(** ** [extractContextSnippet] *)

(** X4: a context snippet is at most 800 code units longer than the match it
    surrounds, and never longer than the document. *)
Theorem extractContextSnippet_bounded xml index len :
  (length (extractContextSnippet xml index len) <= len + 800)%nat
  /\ (length (extractContextSnippet xml index len) <= length xml)%nat.
Proof.
  unfold extractContextSnippet. cbv zeta.
  pose proof (decode_length
                (stripXml (slice xml (index - 400)
                             (length xml `min` (index + len + 400))))) as H1.
  pose proof (strip_length
                (slice xml (index - 400) (length xml `min` (index + len + 400)))) as H2.
  unfold slice in *. rewrite length_take, length_drop in H2. lia.
Qed.

(** X5: the context of a discovered placeholder is in normal form: its only
    white space is single spaces, none of them at its ends. *)
Theorem placeholder_context_normal documentXml p :
  p ∈ extractPlaceholders documentXml ->
  single_spaced (ph_context p) = true /\ trim (ph_context p) = ph_context p.
Proof.
  intros (m & _ & _ & ->)%extractPlaceholders_match. cbn [placeholder_of ph_context].
  apply decode_normal.
Qed.

Lemma placeholder_context_normal_witness :
  let documentXml := str "<w:p>Dear   {{ client_name }},</w:p>" in
  let p := {| ph_id := str "client_name"; ph_label := str "client_name";
              ph_context := str "Dear {{ client_name }}," |} in
  extractPlaceholders documentXml = [p]
  /\ single_spaced (ph_context p) = true
  /\ trim (ph_context p) = ph_context p.
Proof.
  intros documentXml p.
  assert (extractPlaceholders documentXml = [p]) as Hp by (vm_compute; reflexivity).
  split; [exact Hp|].
  apply (placeholder_context_normal documentXml p).
  rewrite Hp. apply list_elem_of_here.
Defined.

(** * What [encodeXml] writes *)

(** Membership in a list that is written out. *)
Ltac listed := apply list_elem_of_In; cbn [In]; tauto.
Ltac not_listed := apply (bool_decide_unpack _); vm_compute; exact I.

Lemma xml_escape_cases x :
  (x ∈ [38; 60; 62; 34; 39] /\ exists tail, xml_escape x = 38 :: tail /\ (38 ∉ tail))
  \/ ((x ∉ [38; 60; 62; 34; 39]) /\ xml_escape x = [x]).
Proof.
  unfold xml_escape. special_cases x;
    try (left; split; [listed|eexists; split; [reflexivity|not_listed]]).
  right. split; [|done]. intros Hin%list_elem_of_In. cbn [In] in Hin. intuition congruence.
Qed.

Lemma xml_escape_markup x c : c ∈ [60; 62; 34; 39] -> c ∉ xml_escape x.
Proof.
  intros Hc%list_elem_of_In. cbn [In] in Hc. unfold xml_escape.
  special_cases x.
  6:{ intros ->%list_elem_of_singleton. intuition congruence. }
  all: destruct Hc as [<-|[<-|[<-|[<-|[]]]]]; not_listed.
Qed.

(** X6: the result of [encodeXml] has none of [<], [>], double quote and
    apostrophe, and each of its ampersands starts one of the five
    entities. *)
Theorem encodeXml_safe value :
  (forall c, c ∈ [60; 62; 34; 39] -> c ∉ encodeXml value)
  /\ (forall i, encodeXml value !! i = Some 38 ->
        exists c, c ∈ [38; 60; 62; 34; 39]
                  /\ xml_escape c `prefix_of` drop i (encodeXml value)).
Proof.
  rewrite encodeXml_flat_map. split.
  - intros c Hc. induction value as [|x v IH]; [apply not_elem_of_nil|].
    cbn [flat_map]. rewrite elem_of_app. intros [Hin|Hin]; [|done].
    by apply (xml_escape_markup x c).
  - induction value as [|x v IH]; intros i; [by destruct i|].
    cbn [flat_map]. destruct (xml_escape_cases x) as [(Hx & tail & Hesc & Htail)|[Hx Hesc]].
    + rewrite Hesc. destruct i as [|i].
      * intros _. exists x. split; [done|]. rewrite Hesc. cbn [drop]. by apply prefix_app_r.
      * cbn [app]. rewrite lookup_cons. destruct (decide (i < length tail)%nat) as [Hlt|Hge].
        -- rewrite lookup_app_l by done. intros Hin%list_elem_of_lookup_2. done.
        -- rewrite lookup_app_r by lia. intros (c & Hc & Hp)%IH. exists c. split; [done|].
           cbn [drop]. rewrite drop_app_ge by lia. done.
    + rewrite Hesc. destruct i as [|i]; cbn [app drop]; rewrite lookup_cons.
      * intros [= ->]. exfalso. apply Hx. listed.
      * apply IH.
Qed.

(** X7: [encodeXml] loses nothing: it escapes each code unit on its own, and
    two values have the same encoding only when they are the same. *)
Theorem encodeXml_injective a b :
  encodeXml (a ++ b) = encodeXml a ++ encodeXml b
  /\ (encodeXml a = encodeXml b <-> a = b).
Proof.
  split; [|split; [|by intros ->]].
  - rewrite !encodeXml_flat_map. apply flat_map_app.
  - intros Hab. rewrite <- (entity_passes_encodeXml a), Hab.
    apply entity_passes_encodeXml.
Qed.

(** * [escapeRegExp] *)

(** X8: whatever the key, its escaped form is a pattern, and the pattern
    matches the key letter by letter and nothing else. *)
Theorem escapeRegExp_literal key :
  new_RegExp (escapeRegExp key) = Some (seq_of (lit key))
  /\ (forall s, exec_at (seq_of (lit key)) s
                = if bool_decide (key `prefix_of` s) then Some (length key, None) else None).
Proof.
  split; [|intros s; apply exec_at_lit].
  unfold new_RegExp. rewrite escapeRegExp_flat_map.
  rewrite <- (app_nil_r (flat_map _ _)).
  rewrite parse_terms_escaped_key by done. cbn. by rewrite app_nil_r.
Qed.

(** * The results of an [exec] loop *)

(** The results come in the order of the text. *)
Lemma exec_loop_sorted r s pos skip :
  Forall (fun m => (pos + skip <= m_index m)%nat) (exec_loop r s pos skip)
  /\ StronglySorted (fun a b => (m_index a < m_index b)%nat) (exec_loop r s pos skip).
Proof.
  revert pos skip. induction s as [|c s IH]; intros pos skip.
  - destruct skip as [|skip]; cbn [exec_loop]; [|by split; constructor].
    destruct (exec_at r []) as [[n cap]|]; [|by split; constructor].
    split; repeat constructor. cbn. lia.
  - destruct skip as [|skip]; cbn [exec_loop].
    + destruct (exec_at r (c :: s)) as [[n cap]|].
      * destruct (IH (S pos) (pred n)) as [Hall Hsorted]. split.
        -- constructor; [cbn; lia|]. eapply Forall_impl; [exact Hall|]. cbn. lia.
        -- constructor; [done|]. eapply Forall_impl; [exact Hall|]. cbn. lia.
      * destruct (IH (S pos) 0%nat) as [Hall Hsorted]. split; [|done].
        eapply Forall_impl; [exact Hall|]. cbn. lia.
    + destruct (IH (S pos) skip) as [Hall Hsorted]. split; [|done].
      eapply Forall_impl; [exact Hall|]. cbn. lia.
Qed.

(** A match that no earlier match runs into is one of the results. *)
Lemma exec_loop_complete r s pos skip i n cap :
  (skip <= i <= length s)%nat ->
  exec_at r (drop i s) = Some (n, cap) ->
  (forall j nj capj, (skip <= j < i)%nat ->
     exec_at r (drop j s) = Some (nj, capj) -> (j + nj <= i)%nat) ->
  exists m, m ∈ exec_loop r s pos skip
            /\ m_index m = (pos + i)%nat /\ m_text m = take n (drop i s)
            /\ m_group m = cap.
Proof.
  revert pos skip i. induction s as [|c s IH]; intros pos skip i Hi He Hfree.
  - cbn [length] in Hi. assert (i = 0%nat) as -> by lia. assert (skip = 0%nat) as -> by lia.
    cbn [drop] in He. cbn [exec_loop]. rewrite He.
    eexists. split; [apply list_elem_of_here|]. cbn. split_and!; [lia|done..].
  - cbn [length] in Hi. destruct skip as [|skip]; cbn [exec_loop].
    + destruct i as [|i].
      * cbn [drop] in He. rewrite He.
        eexists. split; [apply list_elem_of_here|]. cbn. split_and!; [lia|done..].
      * cbn [drop] in He.
        destruct (exec_at r (c :: s)) as [[n0 cap0]|] eqn:He0.
        -- pose proof (Hfree 0%nat n0 cap0 ltac:(lia) He0) as Hn0.
           destruct (IH (S pos) (pred n0) i) as (m & Hin & Hidx & Htext & Hcap);
             [lia|done| |].
           { intros j nj capj Hj Hej. 
             pose proof (Hfree (S j) nj capj ltac:(lia) Hej). lia. }
           exists m. split; [by apply list_elem_of_further|].
           split_and!; [lia|done..].
        -- destruct (IH (S pos) 0%nat i) as (m & Hin & Hidx & Htext & Hcap);
             [lia|done| |].
           { intros j nj capj Hj Hej. 
             pose proof (Hfree (S j) nj capj ltac:(lia) Hej). lia. }
           exists m. split; [done|]. split_and!; [lia|done..].
    + destruct i as [|i]; [lia|]. cbn [drop] in He.
      destruct (IH (S pos) skip i) as (m & Hin & Hidx & Htext & Hcap); [lia|done| |].
      { intros j nj capj Hj Hej.
        pose proof (Hfree (S j) nj capj ltac:(lia) Hej). lia. }
      exists m. split; [done|]. split_and!; [lia|done..].
Qed.

(** * The order of the placeholders *)

Lemma extract_loop_order documentXml matches seen found :
  exists news,
    extract_loop documentXml matches seen found = found ++ news
    /\ (forall q, q ∈ news -> (ph_id q ∉ seen) /\ ph_id q <> [])
    /\ (forall i j p q, news !! i = Some p -> news !! j = Some q -> (i < j)%nat ->
          exists ms1 mp ms2,
            matches = ms1 ++ mp :: ms2 /\ candidate mp = ph_id p
            /\ forall mq, mq ∈ ms1 ++ [mp] -> candidate mq <> ph_id q).
Proof.
  revert seen found. induction matches as [|m rest IH]; intros seen found.
  - exists []. cbn [extract_loop]. rewrite app_nil_r. split_and!; [done| |].
    + by intros q Hq%elem_of_nil.
    + intros i j p q Hp. by destruct i.
  - cbn [extract_loop]. fold (candidate m).
    destruct (bool_decide (candidate m = []) || bool_decide (candidate m ∈ seen)) eqn:Hskip.
    + destruct (IH seen found) as (news & Hout & Hnew & Hord).
      exists news. split_and!; [done..|].
      intros i j p q Hp Hq Hij.
      destruct (Hord i j p q Hp Hq Hij) as (ms1 & mp & ms2 & -> & Hcand & Hbefore).
      exists (m :: ms1), mp, ms2. split_and!; [done..|].
      intros mq [->|Hin]%elem_of_cons; [|by apply Hbefore].
      destruct (Hnew q (list_elem_of_lookup_2 _ _ _ Hq)) as [Hseen Hne].
      apply orb_prop in Hskip as [Hempty|Hin]; [apply bool_decide_eq_true in Hempty|
                                                apply bool_decide_eq_true in Hin];
        congruence.
    + apply orb_false_elim in Hskip as [Hne%bool_decide_eq_false Hfresh%bool_decide_eq_false].
      destruct (IH ({[candidate m]} ∪ seen)
                  (found ++ [{| ph_id := candidate m; ph_label := candidate m;
                                ph_context := extractContextSnippet documentXml (m_index m)
                                                (length (m_text m)) |}]))
        as (news & Hout & Hnew & Hord).
      eexists (_ :: news). split_and!.
      * rewrite Hout, <- app_assoc. reflexivity.
      * intros q [->|Hq]%elem_of_cons; [done|].
        destruct (Hnew q Hq) as [Hseen ?]. split; [|done].
        intros ?. apply Hseen. apply elem_of_union. by right.
      * intros i j p q Hp Hq Hij. destruct j as [|j]; [lia|].
        rewrite lookup_cons in Hq.
        destruct (Hnew q (list_elem_of_lookup_2 _ _ _ Hq)) as [Hseen _].
        assert (candidate m <> ph_id q) as Hmq.
        { intros E. apply Hseen. apply elem_of_union. left. by apply elem_of_singleton. }
        destruct i as [|i].
        -- rewrite lookup_cons in Hp. injection Hp as <-.
           exists [], m, rest. split_and!; [done..|].
           by intros mq ->%list_elem_of_singleton.
        -- rewrite lookup_cons in Hp.
           destruct (Hord i j p q Hp Hq ltac:(lia)) as (ms1 & mp & ms2 & -> & Hcand & Hbefore).
           exists (m :: ms1), mp, ms2. split_and!; [done..|].
           intros mq [->|Hin]%elem_of_cons; [done|by apply Hbefore].
Qed.

(** X9: the placeholders come in the order of the document: of two of them,
    the first one has a token before every token of the second one. *)
Theorem placeholders_in_document_order documentXml i j p q :
  extractPlaceholders documentXml !! i = Some p ->
  extractPlaceholders documentXml !! j = Some q ->
  (i < j)%nat ->
  exists mp, mp ∈ exec_all placeholder_regex documentXml
             /\ candidate mp = ph_id p
             /\ forall mq, mq ∈ exec_all placeholder_regex documentXml ->
                           candidate mq = ph_id q -> (m_index mp < m_index mq)%nat.
Proof.
  unfold extractPlaceholders. intros Hp Hq Hij.
  destruct (extract_loop_order documentXml (exec_all placeholder_regex documentXml) ∅ [])
    as (news & Hout & _ & Hord).
  rewrite Hout in Hp, Hq. cbn [app] in Hp, Hq.
  destruct (Hord i j p q Hp Hq Hij) as (ms1 & mp & ms2 & Hms & Hcand & Hbefore).
  exists mp. split_and!; [rewrite Hms; apply elem_of_app; right; apply list_elem_of_here|done|].
  intros mq Hin Hmq.
  destruct (exec_loop_sorted placeholder_regex documentXml 0 0) as [_ Hsorted].
  fold (exec_all placeholder_regex documentXml) in Hsorted. rewrite Hms in Hsorted, Hin.
  rewrite (cons_middle mp), app_assoc in Hsorted, Hin.
  apply elem_of_app in Hin as [Hin|Hin]; [by destruct (Hbefore mq Hin)|].
  apply (StronglySorted_app_1_elem_of _ _ _ _ _ Hsorted); [|done].
  apply elem_of_app. right. apply list_elem_of_here.
Qed.

Lemma placeholders_in_document_order_witness :
  let documentXml := str "{{b}} then {{a}} then {{b}}" in
  exists p q,
    extractPlaceholders documentXml !! 0%nat = Some p
    /\ extractPlaceholders documentXml !! 1%nat = Some q
    /\ ph_id p = str "b" /\ ph_id q = str "a"
    /\ exists mp, mp ∈ exec_all placeholder_regex documentXml
                  /\ candidate mp = ph_id p
                  /\ forall mq, mq ∈ exec_all placeholder_regex documentXml ->
                                candidate mq = ph_id q -> (m_index mp < m_index mq)%nat.
Proof.
  intros documentXml.
  destruct (extractPlaceholders documentXml) as [|p [|q l]] eqn:Hl;
    [vm_compute in Hl; discriminate Hl..|].
  exists p, q.
  assert (ph_id p = str "b" /\ ph_id q = str "a") as [Hp Hq].
  { vm_compute in Hl. injection Hl as <- <- _. split; reflexivity. }
  split_and!; [done..|].
  apply (placeholders_in_document_order documentXml 0 1 p q);
    [by rewrite Hl..|lia].
Defined.

(** * Every token is discovered *)

Lemma lazy_class_complete {R} c (k : jsstring -> option jsstring -> option R) w s' cap :
  Forall (fun y => cclass_test c y = true) w ->
  is_Some (k s' cap) -> is_Some (lazy_class c k (w ++ s') cap).
Proof.
  intros Hw Hk. induction Hw as [|y w Hy Hw IH]; cbn [app].
  - destruct Hk as [r Hr]. destruct s'; cbn [lazy_class]; by rewrite Hr.
  - cbn [lazy_class]. destruct (k (y :: w ++ s') cap); [done|]. by rewrite Hy.
Qed.

Lemma trimStart_pad l s : spaces l -> trimStart (l ++ s) = trimStart s.
Proof. induction 1 as [|y l Hy Hl IH]; [done|]. cbn. by rewrite Hy. Qed.

Lemma trimEnd_pad s r : spaces r -> trimEnd (s ++ r) = trimEnd s.
Proof.
  intros Hr. unfold trimEnd. rewrite rev_app_distr, trimStart_pad; [done|].
  by apply Forall_rev.
Qed.

Lemma trimStart_app s r :
  trimStart (s ++ r) = match trimStart s with [] => trimStart r | _ => trimStart s ++ r end.
Proof.
  induction s as [|c s IH]; [reflexivity|]. cbn [app trimStart].
  destruct (is_space c); [exact IH|reflexivity].
Qed.

(** White space around a text does not change what [trim] makes of it. *)
Lemma trim_pad l s r : spaces l -> spaces r -> trim (l ++ s ++ r) = trim s.
Proof.
  intros Hl Hr. unfold trim. rewrite trimStart_pad by done. rewrite trimStart_app.
  destruct (trimStart s) as [|c t] eqn:Hs.
  - rewrite <- (app_nil_r r), trimStart_spaces; done.
  - by rewrite trimEnd_pad.
Qed.

(** The discovery pattern matches at every token. *)
Lemma exec_at_placeholder_token w1 g w2 rest :
  spaces w1 -> spaces w2 -> braceless g -> g <> [] ->
  is_Some (exec_at placeholder_regex (str "{{" ++ w1 ++ g ++ w2 ++ str "}}" ++ rest)).
Proof.
  intros Hw1 Hw2 Hg Hne. unfold exec_at.
  change placeholder_regex
    with (seq_of (lit (str "{{")
                  ++ RStar (RClass CSpace)
                     :: RGroup (RLazyPlus (RClass (CNoneOf [123; 125])))
                     :: RStar (RClass CSpace) :: lit (str "}}") ++ [])).
  generalize (str "{{") (str "}}"). intros lb rb.
  rewrite rmatch_lit_then, (proj2 (strip_prefix_Some lb _ _) eq_refl).
  rewrite rmatch_cons, rmatch_star_class. apply star_class_complete; [done|].
  rewrite rmatch_cons, rmatch_group_lazy_plus.
  destruct Hg as [|y g' Hy Hg']; [done|]. cbn [app]. rewrite Hy.
  apply lazy_class_complete; [done|].
  rewrite rmatch_cons, rmatch_star_class. apply star_class_complete; [done|].
  rewrite rmatch_lit_then, (proj2 (strip_prefix_Some rb _ _) eq_refl).
  by eexists.
Qed.

Lemma split_at_first (c : N) a x a' x' :
  c ∉ a -> c ∉ a' -> a ++ c :: x = a' ++ c :: x' -> a = a' /\ x = x'.
Proof.
  revert a'. induction a as [|y a IH]; intros [|y' a'] Ha Ha' E; cbn [app] in E.
  - by injection E as ->.
  - injection E as <- _. exfalso. apply Ha'. apply list_elem_of_here.
  - injection E as -> _. exfalso. apply Ha. apply list_elem_of_here.
  - injection E as -> E. apply not_elem_of_cons in Ha as [_ Ha], Ha' as [_ Ha'].
    destruct (IH a' Ha Ha' E) as [-> ->]. done.
Qed.

Lemma spaces_no_brace w c : spaces w -> is_space c = false -> c ∉ w.
Proof.
  intros Hw Hc Hin. rewrite Forall_forall in Hw.
  apply Hw in Hin. congruence.
Qed.

Lemma body_no_brace w1 g w2 c :
  spaces w1 -> spaces w2 -> braceless g -> c ∈ [123; 125] -> c ∉ w1 ++ g ++ w2.
Proof.
  intros Hw1 Hw2 [Hl Hr]%braceless_spec Hc.
  assert (is_space c = false /\ c ∉ g) as [Hsp Hcg].
  { apply elem_of_cons in Hc as [->|Hc]; [done|].
    by apply list_elem_of_singleton in Hc as ->. }
  rewrite !elem_of_app. intros [Hin|[Hin|Hin]]; [|done|];
    by apply (spaces_no_brace _ c) in Hin.
Qed.

(** What the pattern captures at a token. *)
Lemma placeholder_candidate w1 g w2 rest n cap :
  spaces w1 -> spaces w2 -> braceless g ->
  exec_at placeholder_regex (str "{{" ++ w1 ++ g ++ w2 ++ str "}}" ++ rest) = Some (n, cap) ->
  trim (default [] cap) = trim g.
Proof.
  intros Hw1 Hw2 Hg (w1' & g' & w2' & rest' & E & Hw1' & Hw2' & Hg' & _ & -> & _)%exec_at_placeholder.
  apply app_inv_head in E.
  change (str "}}" ++ ?x) with (125 :: 125 :: x) in E.
  rewrite !(app_assoc _ _ (125 :: _)) in E.
  apply split_at_first in E as [E _].
  - change (default [] (Some g')) with g'.
    rewrite <- (trim_pad w1' g' w2'), <- (trim_pad w1 g w2) by done. by rewrite E.
  - apply body_no_brace; try done. apply list_elem_of_further, list_elem_of_here.
  - apply body_no_brace; try done. apply list_elem_of_further, list_elem_of_here.
Qed.

(** No match of the pattern runs into the start of a token. *)
Lemma token_not_overlapped pre more j nj capj :
  (j < length pre)%nat ->
  exec_at placeholder_regex (drop j (pre ++ 123 :: 123 :: more)) = Some (nj, capj) ->
  (j + nj <= length pre)%nat.
Proof.
  intros Hj (w1 & g & w2 & rest & E & Hw1 & Hw2 & Hg & Hne & _ & ->)%exec_at_placeholder.
  destruct (decide (j + length (str "{{" ++ w1 ++ g ++ w2 ++ str "}}") <= length pre)%nat)
    as [|Hover]; [done|]. exfalso.
  rewrite drop_app_le in E by lia.
  assert (123 ∉ (w1 ++ g ++ w2) ++ str "}}") as Hbody.
  { rewrite elem_of_app. intros [Hin|Hin].
    - revert Hin. apply body_no_brace; try done. apply list_elem_of_here.
    - revert Hin. by apply (bool_decide_unpack _). }
  assert (exists x, (w1 ++ g ++ w2) ++ str "}}" = x :: tail ((w1 ++ g ++ w2) ++ str "}}"))
    as [x Hx].
  { destruct w1; [destruct g; [done|]|]; by eexists. }
  pose proof (length_drop pre j) as Hd.
  rewrite !length_app in Hover. cbn [length str] in Hover.
  set (body := (w1 ++ g ++ w2) ++ str "}}") in *.
  assert (length body = length w1 + length g + length w2 + 2)%nat as Hlen.
  { unfold body. rewrite !length_app. cbn. lia. }
  replace (str "{{" ++ w1 ++ g ++ w2 ++ str "}}" ++ rest)
    with (123 :: 123 :: body ++ rest) in E
    by (unfold body; cbn [str app]; by rewrite <- !app_assoc).
  destruct (drop j pre) as [|y0 [|y1 d]]; cbn [length] in Hd; [lia| |].
  - cbn [app] in E. injection E as _ E. rewrite Hx in E. injection E as <- _.
    apply Hbody. rewrite Hx. apply list_elem_of_here.
  - cbn [app] in E. injection E as _ _ E.
    assert (body !! length d = Some 123) as Hin.
    { rewrite <- (lookup_app_l body rest) by lia. rewrite <- E.
      by rewrite list_lookup_middle. }
    apply Hbody. by apply list_elem_of_lookup_2 in Hin.
Qed.

(** X10: discovery is exact: the ids of the placeholders are the trimmed,
    non-empty contents of the tokens of the document, a token being [{{],
    a text without braces and [}}]. *)
Theorem discovery_exact documentXml k :
  k ∈ ph_id <$> extractPlaceholders documentXml
  <-> k <> []
      /\ exists pre g post,
           documentXml = pre ++ str "{{" ++ g ++ str "}}" ++ post
           /\ (123 ∉ g) /\ (125 ∉ g) /\ k = trim g.
Proof.
  split.
  - intros (p & -> & Hp)%list_elem_of_fmap.
    apply extractPlaceholders_token in Hp
      as (pre & w1 & g & w2 & post & -> & Hw1 & Hw2 & Hl & Hr & Hid & Hne & _).
    split; [done|]. exists pre, (w1 ++ g ++ w2), post.
    assert (braceless g) as Hg by by apply braceless_spec.
    split_and!.
    + by rewrite <- !app_assoc.
    + apply body_no_brace; try done. apply list_elem_of_here.
    + apply body_no_brace; try done. apply list_elem_of_further, list_elem_of_here.
    + by rewrite trim_pad.
  - intros (Hk & pre & g & post & -> & Hl & Hr & ->).
    apply extractPlaceholders_ids. split; [done|].
    assert (braceless g) as Hg by by apply braceless_spec.
    assert (g <> []) as Hne by (by intros ->).
    destruct (exec_at_placeholder_token [] g [] post) as [[n cap] He]; [done..|].
    cbn [app] in He.
    destruct (exec_loop_complete placeholder_regex
                (pre ++ str "{{" ++ g ++ str "}}" ++ post) 0 0 (length pre) n cap)
      as (m & Hin & _ & _ & Hcap).
    + rewrite length_app. lia.
    + by rewrite drop_app_length.
    + intros j nj capj Hj. apply (token_not_overlapped pre (g ++ str "}}" ++ post)). lia.
    + exists m. split; [done|]. unfold candidate. rewrite Hcap.
      by apply (placeholder_candidate [] g [] post n).
Qed.

(** * Discovery and substitution together *)

(** When no token is replaced, there was none. *)
Lemma substituted_none key v n s out :
  substituted key v n s out -> n = 0%nat ->
  forall pre t rest, is_token key t -> s <> pre ++ t ++ rest.
Proof.
  induction 1 as [|t rest out n Ht H IH|c rest out n Hc H IH]; intros Hn pre t' rest' Ht'.
  - intros E. apply is_token_length in Ht'. symmetry in E.
    apply app_eq_nil in E as [_ E]. apply app_eq_nil in E as [-> _]. cbn in Ht'. lia.
  - discriminate.
  - intros E. destruct pre as [|x pre].
    + by apply (Hc t' rest').
    + injection E as _ E. by apply (IH Hn pre t' rest').
Qed.

(** X11: a placeholder that discovery returns can be filled: a finalize with
    a value for its id replaces at least one token of the document. *)
Theorem discovered_placeholder_is_replaced documentXml p value :
  p ∈ extractPlaceholders documentXml -> 36 ∉ value ->
  exists n out,
    substitute_all documentXml [(ph_id p, JStr value)] = Some out
    /\ substituted (ph_id p) (flat_map xml_escape value) (S n) documentXml out.
Proof.
  intros Hp Hvalue.
  destruct (finalize_replaces_placeholder_tokens documentXml p value Hp Hvalue)
    as (n & out & Hout & Hsub).
  destruct n as [|n]; [exfalso|by exists n, out].
  apply extractPlaceholders_token in Hp
    as (pre & w1 & g & w2 & post & E & Hw1 & Hw2 & _ & _ & Hid & _ & _).
  destruct (trim_split g) as (l & r & Hl & Hr & Hg).
  apply (substituted_none _ _ _ _ _ Hsub eq_refl pre
           (str "{{" ++ (w1 ++ l) ++ ph_id p ++ (r ++ w2) ++ str "}}") post).
  - exists (w1 ++ l), (r ++ w2). split_and!; [by apply Forall_app..|done].
  - rewrite E, Hid. rewrite Hg at 1. by rewrite <- !app_assoc.
Qed.

Lemma discovered_placeholder_is_replaced_witness :
  let documentXml := str "Dear {{ client_name }}, welcome" in
  let p := {| ph_id := str "client_name"; ph_label := str "client_name";
              ph_context := str "Dear {{ client_name }}, welcome" |} in
  extractPlaceholders documentXml = [p]
  /\ substitute_all documentXml [(ph_id p, JStr (str "Tom & Co"))]
     = Some (str "Dear Tom &amp; Co, welcome")
  /\ exists n out,
       substitute_all documentXml [(ph_id p, JStr (str "Tom & Co"))] = Some out
       /\ substituted (ph_id p) (flat_map xml_escape (str "Tom & Co")) (S n) documentXml out.
Proof.
  intros documentXml p.
  assert (extractPlaceholders documentXml = [p]) as Hp by (vm_compute; reflexivity).
  split_and!; [exact Hp|vm_compute; reflexivity|].
  apply (discovered_placeholder_is_replaced documentXml p (str "Tom & Co")).
  - rewrite Hp. apply list_elem_of_here.
  - by apply no_dollar_check.
Defined.

(** * The store *)

Section Store.
Context `{Platform}.

(** An upload either succeeds and stores the document under its id, or
    fails with an error response and leaves the store as it was. *)
Lemma upload_handler_cases docId store file :
  (exists f documentXml preview,
      file = Some f
      /\ read_document_xml (file_buffer f) = Some documentXml
      /\ convertToHtml (file_buffer f) = Some preview
      /\ upload_handler docId store file
         = (<[docId := uploaded (file_buffer f) preview (extractPlaceholders documentXml)]> store,
            UploadOk docId (extractPlaceholders documentXml) preview))
  \/ (exists status error,
         upload_handler docId store file = (store, JsonError status error)
         /\ (status = 400 \/ status = 500)%nat).
Proof.
  unfold upload_handler.
  destruct file as [f|]; [|right; do 2 eexists; split; [reflexivity|by left]].
  cbn [or_return mbind outcome_bind].
  destruct (negb _); [right; do 2 eexists; split; [reflexivity|by left]|].
  destruct (convertToHtml (file_buffer f)) as [html|] eqn:Hhtml;
    [|right; do 2 eexists; split; [reflexivity|by right]].
  cbn [await mbind outcome_bind].
  destruct (loadAsync (file_buffer f)) as [zip|] eqn:Hzip;
    [|right; do 2 eexists; split; [reflexivity|by right]].
  cbn [await mbind outcome_bind option_bind].
  destruct (zip_file zip document_xml_path) as [xmlFile|] eqn:Hfile;
    [|right; do 2 eexists; split; [reflexivity|by left]].
  cbn [or_return mbind outcome_bind option_bind].
  destruct (async_string xmlFile) as [documentXml|] eqn:Hxml;
    [|right; do 2 eexists; split; [reflexivity|by right]].
  cbn [await mbind outcome_bind try_catch].
  left. exists f, documentXml, html. split_and!; [done| |done..].
  unfold read_document_xml. rewrite Hzip. cbn [mbind option_bind].
  rewrite Hfile. exact Hxml.
Qed.

Lemma consistent_empty : consistent (∅ : documentStore).
Proof. intros d doc Hd. by rewrite lookup_empty in Hd. Qed.

Lemma consistent_insert store d doc :
  consistent store -> consistent_document doc -> consistent (<[d := doc]> store).
Proof.
  intros Hs Hdoc d' doc' Hd'. destruct (decide (d' = d)) as [->|Hne].
  - rewrite lookup_insert_eq in Hd'. by injection Hd' as <-.
  - rewrite lookup_insert_ne in Hd' by done. by apply (Hs d').
Qed.

Lemma handle_consistent store req : consistent store -> consistent (handle store req).
Proof.
  intros Hs. destruct req as [docId file|body]; cbn [handle].
  - destruct (upload_handler_cases docId store file)
      as [(f & documentXml & preview & -> & Hxml & Hhtml & ->)|(status & error & -> & _)];
      [|done].
    cbn [fst]. apply consistent_insert; [done|].
    split_and!; [by exists documentXml|done..].
  - destruct (finalize_handler_cases store body)
      as [(d & doc & values & fb & html & Hreq & Hfill & ->)|(status & error & ->)];
      [|done].
    cbn [fst]. apply finalize_request_inr in Hreq as (Hd & _).
    destruct (Hs d doc Hd) as (Hxml & Hhtml & _).
    apply consistent_insert; [done|]. by split_and!.
Qed.

(** In a consistent store the ids of the placeholders of a document are
    distinct and not empty. *)
Lemma consistent_ids store d doc :
  consistent store -> store !! d = Some doc ->
  NoDup (ph_id <$> placeholders doc)
  /\ forall p, p ∈ placeholders doc -> ph_id p <> [].
Proof.
  intros Hs Hd. destruct (Hs d doc Hd) as ((documentXml & _ & ->) & _). split.
  - apply extractPlaceholders_NoDup.
  - intros p Hp. apply extractPlaceholders_token in Hp.
    by destruct Hp as (? & ? & ? & ? & ? & _ & _ & _ & _ & _ & _ & Hne & _).
Qed.

End Store.

(** X12: whatever the requests, the documents of the store stay consistent:
    the placeholders of a document are those of its original bytes, and
    its filled bytes are its original bytes filled with its last values. *)
Theorem reachable_store_consistent `{Platform} requests :
  consistent (foldl handle ∅ requests).
Proof.
  pose proof consistent_empty as Hs. revert Hs. generalize (∅ : documentStore).
  induction requests as [|req rest IH]; intros store Hs; [done|].
  cbn [foldl]. by apply IH, handle_consistent.
Qed.

(** X13: an upload changes the store under its own id only, and not at all
    when it fails; it fails with status 400 or 500. *)
Theorem upload_changes_own_document `{Platform} docId store file :
  (forall d, d <> docId -> (upload_handler docId store file).1 !! d = store !! d)
  /\ match (upload_handler docId store file).2 with
     | UploadOk d found preview =>
         d = docId
         /\ exists f, file = Some f
              /\ (upload_handler docId store file).1 !! docId
                 = Some (uploaded (file_buffer f) preview found)
     | JsonError status _ =>
         (upload_handler docId store file).1 = store /\ (status = 400 \/ status = 500)%nat
     | _ => False
     end.
Proof.
  destruct (upload_handler_cases docId store file)
    as [(f & documentXml & preview & -> & Hxml & Hhtml & ->)|(status & error & -> & Hst)];
    cbn [fst snd].
  - split; [intros d Hd; by rewrite lookup_insert_ne|].
    split; [done|]. exists f. split; [done|]. apply lookup_insert_eq.
  - by split.
Qed.

(** X14: a finalize adds no document and removes none, and it changes neither
    the original bytes, nor the preview, nor the placeholders of any
    document. *)
Theorem finalize_keeps_originals `{Platform} store body d :
  match store !! d, (finalize_handler store body).1 !! d with
  | Some doc, Some doc' =>
      originalBuffer doc' = originalBuffer doc
      /\ previewHtml doc' = previewHtml doc
      /\ placeholders doc' = placeholders doc
  | None, None => True
  | _, _ => False
  end.
Proof.
  destruct (finalize_handler_cases store body)
    as [(d' & doc & values & fb & html & Hreq & Hfill & ->)|(status & error & ->)];
    cbn [fst].
  - apply finalize_request_inr in Hreq as (Hd & _).
    destruct (decide (d = d')) as [->|Hne].
    + by rewrite Hd, lookup_insert_eq.
    + rewrite lookup_insert_ne by done. by destruct (store !! d).
  - by destruct (store !! d).
Qed.

Lemma filled_from_Value `{Platform} original values fb html :
  filled_from original values = Value (fb, html) -> convertToHtml fb = Some html.
Proof.
  unfold filled_from.
  destruct (loadAsync _); [|discriminate]. cbn [await mbind outcome_bind].
  destruct (zip_file _ _); [|discriminate]. cbn [or_return mbind outcome_bind].
  destruct (async_string _); [|discriminate]. cbn [await mbind outcome_bind].
  destruct (substitute_all _ _); [|discriminate]. cbn [await mbind outcome_bind].
  destruct (generateAsync _) as [fb'|]; [|discriminate]. cbn [await mbind outcome_bind].
  destruct (convertToHtml fb') as [html'|] eqn:Hhtml; [|discriminate].
  cbn [await mbind outcome_bind]. by intros [= <- <-].
Qed.

(** X15: the preview that a finalize answers with is the rendering of the
    bytes that a download serves afterwards. *)
Theorem finalize_preview_matches_download `{Platform} store body store' d html :
  finalize_handler store body = (store', FinalizeOk d html) ->
  exists fb, download_handler store' d = DownloadOk d fb
             /\ convertToHtml fb = Some html.
Proof.
  intros Hfin.
  destruct (finalize_handler_cases store body)
    as [(d' & doc & values & fb & html' & Hreq & Hfill & Heq)|(status & error & Heq)];
    rewrite Heq in Hfin; [|discriminate].
  injection Hfin as <- <- <-. exists fb. split.
  - unfold download_handler. by rewrite lookup_insert_eq.
  - by apply filled_from_Value in Hfill.
Qed.

Lemma finalize_preview_matches_download_witness :
  let documentXml := str "<w:p>Dear {{name}}</w:p>" in
  let store : documentStore := {[ str "doc-1" := uploaded documentXml (str " Dear {{name}} ") [] ]} in
  let body := JObj [(str "docId", JStr (str "doc-1"));
                    (str "values", JObj [(str "name", JStr (str "Acme"))])] in
  exists fb,
    download_handler (@finalize_handler plain_platform store body).1 (str "doc-1")
    = DownloadOk (str "doc-1") fb
    /\ @convertToHtml plain_platform fb = Some (str " Dear Acme ").
Proof.
  intros documentXml store body.
  apply (@finalize_preview_matches_download plain_platform store body).
  vm_compute. reflexivity.
Defined.

(** * [POST /api/conversation] *)

Lemma find_placeholder (l : list Placeholder) p :
  NoDup (ph_id <$> l) -> p ∈ l -> List.find (id_is (JStr (ph_id p))) l = Some p.
Proof.
  induction l as [|x l IH]; intros Hnd Hp; [by apply elem_of_nil in Hp|].
  rewrite fmap_cons in Hnd. apply NoDup_cons in Hnd as [Hx Hnd].
  cbn [List.find id_is]. case_bool_decide as Hid.
  - apply elem_of_cons in Hp as [->|Hp]; [done|].
    exfalso. apply Hx. rewrite Hid. by apply list_elem_of_fmap_2.
  - apply elem_of_cons in Hp as [->|Hp]; [done|]. by apply IH.
Qed.

(** X16: a request that names a stored document and one of its placeholders
    reaches the model with the system message of that placeholder, and the
    answer is the message of the model. *)
Theorem conversation_reaches_model `{Platform} client OPENAI_MODEL store body d doc p items :
  consistent store ->
  store !! d = Some doc -> p ∈ placeholders doc -> d <> [] ->
  get_prop body (str "docId") = JStr d ->
  get_prop body (str "placeholderId") = JStr (ph_id p) ->
  get_prop body (str "messages") = JArr items ->
  conversation_handler (Some client) OPENAI_MODEL store body
  = match chat_completions_create client (chat_model OPENAI_MODEL)
            ((str "system", system_content p) :: chat_history items) with
    | None => ConversationError 500 "Failed to generate assistant response"
    | Some completion =>
        if truthy completion then ConversationOk completion
        else ConversationError 502 "No completion returned from OpenAI"
    end.
Proof.
  intros Hs Hd Hp Hne Hdoc Hid Hmsg.
  destruct (consistent_ids store d doc Hs Hd) as [Hnd Hids].
  unfold conversation_handler. rewrite !get_prop_truthy, Hdoc, Hid, Hmsg.
  cbn [truthy isArray]. rewrite !bool_decide_eq_false_2 by auto.
  cbn [negb orb store_get]. rewrite Hd. cbn [fmap option_fmap option_map].
  rewrite find_placeholder by done.
  destruct (chat_completions_create _ _ _) as [completion|]; [|done].
  by destruct (truthy completion).
Qed.

Lemma conversation_reaches_model_witness :
  let documentXml := str "Dear {{name}}" in
  let p := {| ph_id := str "name"; ph_label := str "name"; ph_context := documentXml |} in
  let store : documentStore := {[ str "doc-1" := uploaded documentXml documentXml [p] ]} in
  let client := {| chat_completions_create model messages :=
                     Some (JObj [(str "role", JStr (str "assistant"));
                                 (str "content", JStr (join [10] (snd <$> messages)))]) |} in
  let body := JObj [(str "docId", JStr (str "doc-1"));
                    (str "placeholderId", JStr (str "name"));
                    (str "messages",
                     JArr [JObj [(str "role", JStr (str "user"));
                                 (str "content", JStr (str "Acme"))];
                           JNum 7])] in
  @conversation_handler (Some client) None store body
  = ConversationOk
      (JObj [(str "role", JStr (str "assistant"));
             (str "content", JStr (join [10] [system_content p; str "Acme"]))]).
Proof.
  intros documentXml p store client body.
  rewrite (@conversation_reaches_model plain_platform client None store body
             (str "doc-1") (uploaded documentXml documentXml [p]) p
             [JObj [(str "role", JStr (str "user")); (str "content", JStr (str "Acme"))];
              JNum 7]).
  - reflexivity.
  - intros d doc [<- <-]%lookup_singleton_Some.
    split_and!; [exists documentXml; split; vm_compute; reflexivity|..];
      vm_compute; reflexivity.
  - apply lookup_singleton_eq.
  - apply list_elem_of_here.
  - discriminate.
  - reflexivity.
  - reflexivity.
  - reflexivity.
Defined.

(** * [parseOrigins] *)

Lemma split_on_no_sep sep s : Forall (fun item => sep ∉ item) (split_on sep s).
Proof.
  induction s as [|c s IH]; cbn [split_on].
  - repeat constructor. apply not_elem_of_nil.
  - destruct (N.eqb_spec c sep) as [->|Hc].
    + constructor; [apply not_elem_of_nil|done].
    + destruct (split_on sep s) as [|item items].
      * repeat constructor. by intros ?%list_elem_of_singleton.
      * apply Forall_cons in IH as [Hitem Hitems]. constructor; [|done].
        apply not_elem_of_cons. split; [congruence|done].
Qed.

Lemma trim_elem c s : c ∈ trim s -> c ∈ s.
Proof.
  destruct (trim_split s) as (l & r & _ & _ & Hs). intros Hc. rewrite Hs.
  apply elem_of_app. right. apply elem_of_app. by left.
Qed.

Lemma origins_clean value :
  Forall clean_origin
    (List.filter (fun item => negb (bool_decide (item = [])))
       (trim <$> split_on 44 value)).
Proof.
  apply Forall_forall. intros o [Ho Hne]%list_elem_of_In%filter_In.
  apply list_elem_of_In, list_elem_of_fmap in Ho as (item & -> & Hitem).
  apply negb_true_iff, bool_decide_eq_false in Hne. split_and!; [done| |].
  - apply trim_idempotent.
  - intros Hc%trim_elem. pose proof (split_on_no_sep 44 value) as Hall.
    rewrite Forall_forall in Hall. by apply (Hall item).
Qed.

(** X17: [parseOrigins] returns trimmed, non-empty texts without comma: one of
    them as such, two or more as a list, and nothing exactly when every item
    of the value is blank. *)
Theorem parseOrigins_result value :
  match parseOrigins value with
  | NoOrigin => True
  | OneOrigin origin => clean_origin origin
  | ManyOrigins l => (2 <= length l)%nat /\ Forall clean_origin l
  end
  /\ (parseOrigins value = NoOrigin
      <-> forall v, value = Some v -> Forall (fun item => trim item = []) (split_on 44 v)).
Proof.
  destruct value as [[|c v]|]; cbn [parseOrigins].
  - split; [done|]. split; [|done]. intros _ v [= <-]. by repeat constructor.
  - pose proof (origins_clean (c :: v)) as Hclean.
    assert (List.filter (fun item => negb (bool_decide (item = [])))
              (trim <$> split_on 44 (c :: v)) = []
            <-> Forall (fun item => trim item = []) (split_on 44 (c :: v))) as Hblank.
    { rewrite Forall_forall. split.
      - intros Hf item Hitem.
        destruct (decide (trim item = [])) as [|Hne]; [done|]. exfalso.
        assert (In (trim item) []) as Hin; [|done]. rewrite <- Hf. apply filter_In. split.
        + apply list_elem_of_In, list_elem_of_fmap. by exists item.
        + by apply negb_true_iff, bool_decide_eq_false.
      - intros Hall. destruct (List.filter _ _) as [|o l] eqn:Hf; [done|]. exfalso.
        assert (In o (o :: l)) as Hin by by left. rewrite <- Hf in Hin.
        apply filter_In in Hin as [Ho Hne].
        apply list_elem_of_In, list_elem_of_fmap in Ho as (item & -> & Hitem).
        rewrite (Hall item Hitem) in Hne. discriminate. }
    destruct (List.filter _ _) as [|o [|o' l]] eqn:Hf.
    + split; [done|]. split; [|done]. intros _ v' [= <-]. by apply Hblank.
    + split; [by apply Forall_cons in Hclean as [Ho _]|].
      split; [done|]. intros Hall. by apply Hblank in Hall.
    + split; [split; [cbn; lia|done]|].
      split; [done|]. intros Hall. by apply Hblank in Hall.
  - split; [done|]. split; [|done]. by intros _ v [=].
Qed.

(** * [useAssistantReply] *)

Lemma useAssistantReply_cases selected sessions :
  useAssistantReply selected sessions = sessions
  \/ exists c id session lastAssistant,
       selected = Some (c :: id)
       /\ sessions !! (c :: id) = Some session
       /\ List.find (fun message => bool_decide (message.1 = str "assistant"))
            (rev (ps_messages session)) = Some lastAssistant
       /\ useAssistantReply selected sessions
          = <[c :: id := {| ps_messages := ps_messages session;
                            ps_value := lastAssistant.2 |}]> sessions.
Proof.
  unfold useAssistantReply. destruct selected as [[|c id]|]; [by left| |by left].
  destruct (sessions !! (c :: id)) as [session|] eqn:Hs; [|by left].
  destruct (List.find _ (rev (ps_messages session))) as [lastAssistant|] eqn:Hfind;
    [|by left].
  right. by exists c, id, session, lastAssistant.
Qed.

(** X18: [useAssistantReply] changes nothing but the value of the selected
    placeholder, keeps the messages of every session, and changes nothing
    more when it is called again. *)
Theorem useAssistantReply_frame selected sessions :
  (forall id, selected <> Some id ->
     useAssistantReply selected sessions !! id = sessions !! id)
  /\ (forall id, ps_messages <$> useAssistantReply selected sessions !! id
                 = ps_messages <$> sessions !! id)
  /\ useAssistantReply selected (useAssistantReply selected sessions)
     = useAssistantReply selected sessions.
Proof.
  destruct (useAssistantReply_cases selected sessions)
    as [Hsame|(c & id' & session & lastAssistant & -> & Hs & Hfind & Hset)].
  - by rewrite !Hsame.
  - rewrite Hset. split_and!.
    + intros id Hid. rewrite lookup_insert_ne; [done|congruence].
    + intros id. destruct (decide (id = c :: id')) as [->|Hne].
      * by rewrite lookup_insert_eq, Hs.
      * by rewrite lookup_insert_ne.
    + unfold useAssistantReply. rewrite lookup_insert_eq. cbn [ps_messages].
      rewrite Hfind. by rewrite insert_insert_eq.
Qed.

Lemma find_skip {A} (f : A -> bool) l1 x l2 :
  (forall y, y ∈ l1 -> f y = false) -> f x = true -> List.find f (l1 ++ x :: l2) = Some x.
Proof.
  intros Hl1 Hx. induction l1 as [|y l1 IH]; cbn [app List.find].
  - by rewrite Hx.
  - rewrite (Hl1 y) by apply list_elem_of_here. apply IH.
    intros z Hz. apply Hl1. by apply list_elem_of_further.
Qed.

(** X19: the value that [useAssistantReply] sets is the content of the last
    message of the assistant in the session of the selected placeholder. *)
Theorem useAssistantReply_takes_last id sessions session before content after :
  id <> [] ->
  sessions !! id = Some session ->
  ps_messages session = before ++ (str "assistant", content) :: after ->
  (forall message, message ∈ after -> message.1 <> str "assistant") ->
  useAssistantReply (Some id) sessions
  = <[id := {| ps_messages := ps_messages session; ps_value := content |}]> sessions.
Proof.
  intros Hid Hs Hmsgs Hafter. unfold useAssistantReply.
  destruct id as [|c id]; [done|]. rewrite Hs, Hmsgs.
  rewrite rev_app_distr. cbn [rev]. rewrite <- app_assoc. cbn [app].
  rewrite find_skip; [done| |by apply bool_decide_eq_true].
  intros y Hy%list_elem_of_In%in_rev%list_elem_of_In.
  by apply bool_decide_eq_false, Hafter.
Qed.

Lemma useAssistantReply_takes_last_witness :
  let messages := [(str "assistant", str "Which company?"); (str "user", str "Acme");
                   (str "assistant", str "Acme Inc."); (str "user", str "thanks")] in
  let sessions : gmap jsstring PlaceholderSession :=
    {[ str "name" := {| ps_messages := messages; ps_value := [] |} ]} in
  useAssistantReply (Some (str "name")) sessions
  = {[ str "name" := {| ps_messages := messages; ps_value := str "Acme Inc." |} ]}.
Proof.
  intros messages sessions.
  rewrite (useAssistantReply_takes_last (str "name") sessions
             {| ps_messages := messages; ps_value := [] |}
             [(str "assistant", str "Which company?"); (str "user", str "Acme")]
             (str "Acme Inc.") [(str "user", str "thanks")]).
  - unfold sessions. rewrite <- (insert_empty (M:=gmap jsstring)), insert_insert_eq. reflexivity.
  - discriminate.
  - apply lookup_singleton_eq.
  - reflexivity.
  - intros message ->%list_elem_of_singleton. discriminate.
Defined.

(** * [Object.fromEntries] *)

Lemma assoc_get_cons name v props k :
  assoc_get ((name, v) :: props) k
  = if bool_decide (k = name) then v else assoc_get props k.
Proof.
  cbn [assoc_get]. destruct (decide (k = name)) as [->|Hne].
  - by rewrite !bool_decide_eq_true_2.
  - rewrite (bool_decide_eq_false_2 (name = k)) by congruence.
    by rewrite bool_decide_eq_false_2.
Qed.

Lemma assoc_get_update props name v k :
  name ∈ props.*1 ->
  assoc_get (update_property props name v) k
  = if bool_decide (k = name) then v else assoc_get props k.
Proof.
  induction props as [|[k' w] props IH]; [by intros ?%elem_of_nil|].
  cbn [fmap list_fmap fst update_property]. intros Hin.
  destruct (decide (k' = name)) as [->|Hk'].
  - rewrite (bool_decide_eq_true_2 (name = name)) by done.
    rewrite !assoc_get_cons. by case_bool_decide.
  - rewrite (bool_decide_eq_false_2 (k' = name)) by done.
    apply elem_of_cons in Hin as [?|Hin]; [congruence|].
    rewrite !assoc_get_cons, IH by done.
    destruct (decide (k = name)) as [->|Hkn].
    + rewrite (bool_decide_eq_true_2 (name = name)) by done.
      by rewrite (bool_decide_eq_false_2 (name = k')) by congruence.
    + by rewrite !(bool_decide_eq_false_2 (k = name)) by done.
Qed.

Lemma assoc_get_insert_index props n name v k :
  name ∉ props.*1 ->
  assoc_get (insert_index props n name v) k
  = if bool_decide (k = name) then v else assoc_get props k.
Proof.
  induction props as [|[k' w] props IH]; intros Hout.
  - apply assoc_get_cons.
  - cbn [fmap list_fmap fst] in Hout. apply not_elem_of_cons in Hout as [Hk' Hout].
    cbn [insert_index]. destruct (array_index k') as [m|]; [|apply assoc_get_cons].
    destruct (n <? m); [apply assoc_get_cons|].
    rewrite !(assoc_get_cons k'), IH by done.
    case_bool_decide as E1; [|done]. subst k. by rewrite bool_decide_eq_false_2.
Qed.

Lemma assoc_get_snoc props name v k :
  name ∉ props.*1 ->
  assoc_get (props ++ [(name, v)]) k
  = if bool_decide (k = name) then v else assoc_get props k.
Proof.
  induction props as [|[k' w] props IH]; intros Hout.
  - apply assoc_get_cons.
  - cbn [fmap list_fmap fst] in Hout. apply not_elem_of_cons in Hout as [Hk' Hout].
    change (((k', w) :: props) ++ [(name, v)]) with ((k', w) :: (props ++ [(name, v)])).
    rewrite !(assoc_get_cons k'), IH by done.
    case_bool_decide as E1; [|done]. subst k. by rewrite bool_decide_eq_false_2.
Qed.

(** Setting a property changes the value of that property only. *)
Lemma assoc_get_set_property props name v k :
  assoc_get (set_property props name v) k
  = if bool_decide (k = name) then v else assoc_get props k.
Proof.
  unfold set_property. case_bool_decide as Hin; [by apply assoc_get_update|].
  destruct (array_index name); [by apply assoc_get_insert_index|by apply assoc_get_snoc].
Qed.

(** The object made of entries whose value is a function of their key. *)
Lemma fromEntries_get (f : jsstring -> jsval) keys props k :
  assoc_get (foldl (fun props e => set_property props e.1 e.2) props
               ((fun key => (key, f key)) <$> keys)) k
  = if bool_decide (k ∈ keys) then f k else assoc_get props k.
Proof.
  revert props. induction keys as [|key keys IH]; intros props.
  - cbn [fmap list_fmap foldl]. rewrite bool_decide_eq_false_2; [done|apply not_elem_of_nil].
  - cbn [fmap list_fmap foldl fst snd]. rewrite IH, assoc_get_set_property.
    destruct (decide (k ∈ keys)) as [Hin|Hout].
    + rewrite !bool_decide_eq_true_2; [done|by apply list_elem_of_further|done].
    + rewrite (bool_decide_eq_false_2 (k ∈ keys)) by done.
      destruct (decide (k = key)) as [->|Hne].
      * rewrite !bool_decide_eq_true_2; [done|apply list_elem_of_here|done].
      * rewrite !bool_decide_eq_false_2; [done| |done].
        intros [?|?]%elem_of_cons; done.
Qed.

(** * [finalizeDocument] with every value given *)

Lemma missing_none sessions (l : list Placeholder) :
  (forall p, p ∈ l -> value_missing sessions p = false) ->
  filter (fun p => value_missing sessions p = true) l = [].
Proof.
  induction l as [|p l IH]; intros Hall; [done|].
  rewrite filter_cons_False.
  - apply IH. intros q Hq. apply Hall. by apply list_elem_of_further.
  - rewrite (Hall p) by apply list_elem_of_here. discriminate.
Qed.

(** X20: when every placeholder has a value that is not blank,
    [finalizeDocument] sends the finalize request of the document: its value
    set has the ids of the placeholders as its keys, each with the value of
    its session as it was typed, and the store becomes what the backend
    makes of this request. *)
Theorem finalizeDocument_sends_session_values `{Platform} app store doc :
  documentMeta app = Some doc ->
  (forall p, p ∈ dm_placeholders doc -> value_missing (sessions app) p = false) ->
  exists values,
    (finalizeDocument app store).2
    = (finalize_handler store
         (JObj [(str "docId", JStr (dm_docId doc)); (str "values", values)])).1
    /\ truthy values = true /\ typeof_object values = true
    /\ (forall p, p ∈ dm_placeholders doc ->
          exists session,
            sessions app !! ph_id p = Some session
            /\ trim (ps_value session) <> []
            /\ get_prop values (ph_id p) = JStr (ps_value session))
    /\ (forall k, get_prop values k <> JUndefined -> k ∈ ph_id <$> dm_placeholders doc)
    /\ finalizing (finalizeDocument app store).1 = false.
Proof.
  intros Hdoc Hall.
  set (f := fun key => JStr (default [] (ps_value <$> sessions app !! key))).
  exists (object_fromEntries ((fun key => (key, f key)) <$> (ph_id <$> dm_placeholders doc))).
  assert (forall k, get_prop (object_fromEntries
                                ((fun key => (key, f key)) <$> (ph_id <$> dm_placeholders doc))) k
                    = if bool_decide (k ∈ ph_id <$> dm_placeholders doc) then f k
                      else JUndefined) as Hget.
  { intros k. unfold object_fromEntries. cbn [get_prop]. by rewrite fromEntries_get. }
  split_and!; [|done|done| | |].
  - unfold finalizeDocument. rewrite Hdoc.
    rewrite missing_none by done.
    cbn [length Nat.ltb Nat.leb]. rewrite <- list_fmap_compose.
    change (fun p => _) with ((fun key => (key, f key)) ∘ ph_id) at 1.
    destruct (finalize_handler store _) as [store' response]. by destruct response.
  - intros p Hp. pose proof (Hall p Hp) as Hv. unfold value_missing in Hv.
    destruct (sessions app !! ph_id p) as [session|] eqn:Hs; [|discriminate].
    exists session. apply bool_decide_eq_false in Hv. split_and!; [done..|].
    rewrite Hget, bool_decide_eq_true_2 by (by apply list_elem_of_fmap_2).
    unfold f. by rewrite Hs.
  - intros k. rewrite Hget. by case_bool_decide.
  - unfold finalizeDocument. rewrite Hdoc.
    rewrite missing_none by done.
    cbn [length Nat.ltb Nat.leb].
    destruct (finalize_handler store _) as [store' response]. by destruct response.
Qed.

Lemma finalizeDocument_sends_session_values_witness :
  let documentXml := str "Dear {{client_name}}" in
  let client := {| ph_id := str "client_name"; ph_label := str "client_name";
                   ph_context := documentXml |} in
  let doc := {| dm_docId := str "doc-1"; dm_placeholders := [client];
                dm_previewHtml := documentXml; dm_filledPreviewHtml := None |} in
  let app := {| documentMeta := Some doc;
                sessions := {[ str "client_name" := {| ps_messages := [];
                                                       ps_value := str " Acme " |} ]};
                finalizing := false; statusMessage := None; errorMessage := None |} in
  let store : documentStore := {[ str "doc-1" := uploaded documentXml documentXml [client] ]} in
  filledBuffer <$> (@finalizeDocument plain_platform app store).2 !! str "doc-1"
  = Some (Some (str "Dear  Acme "))
  /\ exists values,
       (@finalizeDocument plain_platform app store).2
       = (@finalize_handler plain_platform store
            (JObj [(str "docId", JStr (dm_docId doc)); (str "values", values)])).1
       /\ truthy values = true /\ typeof_object values = true
       /\ (forall p, p ∈ dm_placeholders doc ->
             exists session,
               sessions app !! ph_id p = Some session
               /\ trim (ps_value session) <> []
               /\ get_prop values (ph_id p) = JStr (ps_value session))
       /\ (forall k, get_prop values k <> JUndefined -> k ∈ ph_id <$> dm_placeholders doc)
       /\ finalizing (@finalizeDocument plain_platform app store).1 = false.
Proof.
  intros documentXml client doc app store. split; [vm_compute; reflexivity|].
  apply (@finalizeDocument_sends_session_values plain_platform app store doc).
  - reflexivity.
  - intros p ->%list_elem_of_singleton. vm_compute. reflexivity.
Defined.
